(** * Cordelia: chord matching and key estimation

    A shallow embedding of the engine of [main.go] (note parsing, the chord
    dictionary, subset matching, chord-name parsing and key estimation),
    followed by the properties of the design specification that concern it.

    Conventions of the embedding:
    - a Go [string] is a sequence of bytes: Rocq's [string];
    - a Go [int] is a 64-bit two's-complement integer: a [Z] with the
      wrap-around of each arithmetic operation written out ([int_wrap]);
    - [map[int]struct{}] is a finite set [gset Z], [map[string]int] a finite
      map [gmap string Z];
    - a slice is a [list]; an index expression that may leave the bounds
      returns [option], [None] standing for the run-time panic;
    - a [(T, error)] result is a [result T], the error carrying the message
      built by [fmt.Errorf]. *)

From Stdlib Require Import ZArith String Ascii List Lia Permutation Sorted.
From stdpp Require Import base decidable option numbers list sorting sets gmap strings pretty.

Open Scope string_scope.
Open Scope list_scope.
Open Scope Z_scope.

(** ** The Go run time: integers, slices, errors, sorting *)

Definition int_wrap (z : Z) : Z := (z + 2 ^ 63) mod 2 ^ 64 - 2 ^ 63.
Definition int_add (a b : Z) : Z := int_wrap (a + b).
Definition int_sub (a b : Z) : Z := int_wrap (a - b).
(** Go's [%] truncates toward zero, so its sign follows the dividend. *)
Definition int_rem (a b : Z) : Z := Z.rem a b.

(** [s[i]] on a slice: out of range (negative or past the end) panics. *)
Definition index {A} (s : list A) (i : Z) : option A :=
  if decide (0 ≤ i) then s !! Z.to_nat i else None.

Inductive result (A : Type) : Type :=
| Ok (a : A)
| Err (msg : string).
Arguments Ok {A} a.
Arguments Err {A} msg.

Definition is_Err {A} (r : result A) : Prop :=
  match r with Ok _ => False | Err _ => True end.

(** [for _, x := range xs { if p(x) { acc = append(acc, f(x)) } }] *)
Definition append_if {A B} (p : A → bool) (f : A → B) (acc : list B) (x : A) : list B :=
  if p x then acc ++ [f x] else acc.

(** [sort.Slice(xs, less)] and [sort.Ints(xs)].  The library promises a
    permutation of its input that is ordered by [less], and no stability; the
    embedding inserts the elements one by one.  Both closures the engine
    sorts with ([<] on [int] and [KeyMatch.less]) are strict total orders, so
    that the ordered permutation is unique ([sorted_perm_unique] below) and
    the choice of algorithm cannot be observed. *)
Fixpoint insert_sorted {A} (less : A → A → bool) (x : A) (l : list A) : list A :=
  match l with
  | [] => [x]
  | y :: l' => if less x y then x :: y :: l' else y :: insert_sorted less x l'
  end.

Definition sort_Slice {A} (less : A → A → bool) (xs : list A) : list A :=
  foldr (insert_sorted less) [] xs.

Definition sort_Ints (xs : list Z) : list Z := sort_Slice Z.ltb xs.

(** ** Strings, runes and case mapping *)

(** A [rune] is a Unicode code point (Go's [int32]). *)
Definition rune := Z.
Definition RuneError : rune := 0xFFFD.
Definition RuneSelf : rune := 0x80.
Definition MaxRune : rune := 0x10FFFF.
Definition MaxASCII : rune := 0x7F.

Definition bytes_of_string (s : string) : list Z :=
  map (λ c, Z.of_N (N_of_ascii c)) (list_ascii_of_string s).
Definition string_of_bytes (bs : list Z) : string :=
  string_of_list_ascii (map (λ b, ascii_of_N (Z.to_N b)) bs).

(** [name[:n]] and [name[n:]], for [n] within the length of [name]. *)
Definition slice_to (name : string) (n : nat) : string := substring 0 n name.
Definition slice_from (name : string) (n : nat) : string :=
  substring n (String.length name - n) name.

Definition in_range (lo hi b : Z) : bool := (lo <=? b) && (b <=? hi).

(** For a leading byte, the number of continuation bytes and the range
    accepted for the first of them (the tables [first] and [acceptRanges] of
    [unicode/utf8]); [None] for a byte that cannot start an encoding. *)
Definition utf8_first (b0 : Z) : option (nat * Z * Z) :=
  if in_range 0xC2 0xDF b0 then Some (1%nat, 0x80, 0xBF)
  else if b0 =? 0xE0 then Some (2%nat, 0xA0, 0xBF)
  else if in_range 0xE1 0xEC b0 || in_range 0xEE 0xEF b0 then Some (2%nat, 0x80, 0xBF)
  else if b0 =? 0xED then Some (2%nat, 0x80, 0x9F)
  else if b0 =? 0xF0 then Some (3%nat, 0x90, 0xBF)
  else if in_range 0xF1 0xF3 b0 then Some (3%nat, 0x80, 0xBF)
  else if b0 =? 0xF4 then Some (3%nat, 0x80, 0x8F)
  else None.

Definition low6 (b : Z) : Z := Z.land b 0x3F.

(** [[]rune(s)]: UTF-8 decoding; a byte that does not start a valid encoding
    gives one [RuneError] and decoding resumes at the next byte. *)
Fixpoint utf8_decode (bs : list Z) : list rune :=
  match bs with
  | [] => []
  | b0 :: t0 =>
    if b0 <? RuneSelf then b0 :: utf8_decode t0
    else
      let invalid := RuneError :: utf8_decode t0 in
      match utf8_first b0, t0 with
      | Some (1%nat, lo, hi), b1 :: t1 =>
        if in_range lo hi b1
        then Z.lor (Z.shiftl (Z.land b0 0x1F) 6) (low6 b1) :: utf8_decode t1
        else invalid
      | Some (2%nat, lo, hi), b1 :: b2 :: t2 =>
        if in_range lo hi b1 && in_range 0x80 0xBF b2
        then Z.lor (Z.shiftl (Z.land b0 0x0F) 12)
                   (Z.lor (Z.shiftl (low6 b1) 6) (low6 b2)) :: utf8_decode t2
        else invalid
      | Some (3%nat, lo, hi), b1 :: b2 :: b3 :: t3 =>
        if in_range lo hi b1 && in_range 0x80 0xBF b2 && in_range 0x80 0xBF b3
        then Z.lor (Z.shiftl (Z.land b0 0x07) 18)
                   (Z.lor (Z.shiftl (low6 b1) 12)
                          (Z.lor (Z.shiftl (low6 b2) 6) (low6 b3))) :: utf8_decode t3
        else invalid
      | _, _ => invalid
      end
  end.

(** [string(r)]: the UTF-8 encoding of one rune; a value that is not a valid
    code point is encoded as [RuneError]. *)
Definition utf8_encode_rune (r : rune) : list Z :=
  let cont (shift : Z) := Z.lor 0x80 (low6 (Z.shiftr r shift)) in
  if in_range 0 0x7F r then [r]
  else if in_range 0x80 0x7FF r then [Z.lor 0xC0 (Z.shiftr r 6); cont 0]
  else if negb (in_range 0 MaxRune r) || in_range 0xD800 0xDFFF r then [0xEF; 0xBF; 0xBD]
  else if r <=? 0xFFFF then [Z.lor 0xE0 (Z.shiftr r 12); cont 6; cont 0]
  else [Z.lor 0xF0 (Z.shiftr r 18); cont 12; cont 6; cont 0].

Definition runes_of_string (s : string) : list rune := utf8_decode (bytes_of_string s).
Definition string_of_runes (rs : list rune) : string :=
  string_of_bytes (concat (map utf8_encode_rune rs)).

(** The case tables of Go's [unicode] package beyond ASCII
    ([unicode.To(UpperCase, r)] and [unicode.To(TitleCase, r)] for
    [r > MaxASCII]) are data of the Go distribution, not of this program:
    the embedding takes them as a parameter, and every property below holds
    whatever they are. *)
Class CaseTables := {
  To_UpperCase : rune → rune;
  To_TitleCase : rune → rune
}.

Definition unicode_ToUpper `{CaseTables} (r : rune) : rune :=
  if r <=? MaxASCII then
    if in_range 97 122 r then r - 32 else r
  else To_UpperCase r.

(** "title case is upper case for ASCII" *)
Definition unicode_ToTitle `{CaseTables} (r : rune) : rune :=
  if r <=? MaxASCII then
    if in_range 97 122 r then r - 32 else r
  else To_TitleCase r.

(** [strings.Map(mapping, s)]: a rune mapped to a negative value is dropped. *)
Definition strings_Map (mapping : rune → rune) (s : string) : string :=
  string_of_runes (filter (λ r, 0 ≤ r) (map mapping (runes_of_string s))).

Definition strings_ToUpper `{CaseTables} (s : string) : string :=
  strings_Map unicode_ToUpper s.

(** [strings.Replace(s, old, new, 1)] for a non-empty [old]: the first
    occurrence only. *)
Fixpoint strings_Replace1 (s old new : string) : string :=
  match s with
  | EmptyString => EmptyString
  | String c s' =>
    if String.prefix old s then new +:+ slice_from s (String.length old)
    else String c (strings_Replace1 s' old new)
  end.

(** ** Note logic *)

Record Note := mkNote { Original : string; Value : Z }.

Definition noteMap : gmap string Z := list_to_map
  [("C", 0); ("B#", 0); ("C#", 1); ("DB", 1); ("D", 2); ("D#", 3); ("EB", 3);
   ("E", 4); ("FB", 4); ("F", 5); ("E#", 5); ("F#", 6); ("GB", 6); ("G", 7);
   ("G#", 8); ("AB", 8); ("A", 9); ("A#", 10); ("BB", 10); ("B", 11); ("CB", 11)].

Definition valueToName : list string :=
  ["C"; "C#"; "D"; "D#"; "E"; "F"; "F#"; "G"; "G#"; "A"; "A#"; "B"].

(** The token as [ParseNote] looks it up: first rune in title case, the
    others in upper case, then the first [b] left, if any, turned into [B].
    [runes[0]] is [take 1 runes]: the slice is not empty when [s] is not. *)
Definition normalize `{CaseTables} (s : string) : string :=
  let runes := runes_of_string s in
  let normalized := string_of_runes (unicode_ToTitle <$> take 1 runes) in
  let normalized :=
    if decide (1 < length runes)%nat
    then normalized +:+ strings_ToUpper (string_of_runes (drop 1 runes))
    else normalized in
  strings_Replace1 normalized "b" "B".

Definition ParseNote `{CaseTables} (s : string) : result Note :=
  if decide (s = "") then Err "cannot parse empty string"
  else
    match noteMap !! normalize s with
    | None => Err "unrecognized note"
    | Some value => Ok (mkNote s value)
    end.

(** One iteration of the loop of [Unique]; the state is the [seen] set and
    the slice built so far. *)
Definition Unique_step (st : gset Z * list Note) (n : Note) : gset Z * list Note :=
  let '(seen, uniqueNotes) := st in
  if decide (Value n ∈ seen) then (seen, uniqueNotes)
  else ({[Value n]} ∪ seen, uniqueNotes ++ [n]).

Definition Unique (notes : list Note) : list Note :=
  snd (foldl Unique_step (∅, []) notes).

Definition strings_Join (parts : list string) (sep : string) : string :=
  match parts with
  | [] => ""
  | p :: ps => foldl (λ acc q, acc +:+ sep +:+ q) p ps
  end.

Definition SliceToString (notes : list Note) : option string :=
  parts ← mapM (λ n, if decide (Original n = "") then index valueToName (Value n)
                     else Some (Original n)) notes;
  Some (strings_Join parts " ").

(** ** Chord logic *)

Module Chord.
Record t := mk { Name : string; Suffixes : list string; Intervals : list Z }.

(** The method [func (c Chord) Check(inputIntervals, inputSet)]. *)
Definition Check (c : t) (inputIntervals : list Z) (inputSet : gset Z) : bool * string :=
  if decide (length inputIntervals < length (Intervals c))%nat then
    (false, "requires " +:+ pretty (length (Intervals c)) +:+ " intervals, input has "
              +:+ pretty (length inputIntervals))
  else
    match list_find (λ requiredInterval, requiredInterval ∉ inputSet) (Intervals c) with
    | Some (_, requiredInterval) => (false, "missing interval " +:+ pretty requiredInterval)
    | None => (true, "")
    end.
End Chord.
Abbreviation Chord := Chord.t.

Module Match.
Record t := mk { Name : string; Intervals : list Z }.
End Match.
Abbreviation Match := Match.t.

Definition chordDictionary : list Chord :=
  [ Chord.mk "Major 7th" ["maj7"; "M7"] [0; 4; 7; 11];
    Chord.mk "Minor-Major 7th" ["m(maj7)"] [0; 3; 7; 11];
    Chord.mk "Minor 7th" ["m7"; "min7"] [0; 3; 7; 10];
    Chord.mk "Dominant 7th" ["7"; "dom7"] [0; 4; 7; 10];
    Chord.mk "Major Triad" [""; "M"] [0; 4; 7];
    Chord.mk "Minor Triad" ["m"; "min"] [0; 3; 7];
    Chord.mk "Diminished Triad" ["dim"] [0; 3; 6];
    Chord.mk "Augmented Triad" ["aug"; "+"] [0; 4; 8];
    Chord.mk "Sus2" ["sus2"] [0; 2; 7];
    Chord.mk "Sus4" ["sus4"] [0; 5; 7] ].

Definition GetDictionary : list Chord := chordDictionary.

(** The two nested loops that end [ParseChordName]: the first definition,
    in dictionary order, one of whose suffixes equals [quality]. *)
Definition findQuality (quality : string) : option (nat * Chord) :=
  list_find (λ chordDef, Exists (λ suffix, quality = suffix) (Chord.Suffixes chordDef))
            chordDictionary.

Definition ParseChordName `{CaseTables} (name : string) : result (Note * Chord) :=
  let root_quality : result (Note * string) :=
    if decide (1 < String.length name)%nat then
      match ParseNote (slice_to name 2) with
      | Ok rootNote => Ok (rootNote, slice_from name 2)
      | Err _ =>
        match ParseNote (slice_to name 1) with
        | Ok rootNote => Ok (rootNote, slice_from name 1)
        | Err _ => Err "invalid root note in chord name"
        end
      end
    else
      match ParseNote name with
      | Ok rootNote => Ok (rootNote, "")
      | Err _ => Err "invalid root note in chord name"
      end in
  match root_quality with
  | Err msg => Err msg
  | Ok (rootNote, quality) =>
    match findQuality quality with
    | Some (_, chordDef) => Ok (rootNote, chordDef)
    | None => Err ("unknown chord quality: '" +:+ quality +:+ "'")
    end
  end.

(** [notes[i] = Note{Original: valueToName[noteValue], Value: noteValue}] for
    every index: the slice is filled in order, and the first index
    expression out of range panics. *)
Definition GenerateNotes (root : Note) (intervals : list Z) : option (list Note) :=
  mapM (λ interval,
          let noteValue := int_rem (int_add (Value root) interval) 12 in
          name ← index valueToName noteValue;
          Some (mkNote name noteValue)) intervals.

Definition CalculateIntervals (root : Note) (notes : list Note) : list Z :=
  let intervals :=
    foldl (λ intervals n,
             let interval := int_sub (Value n) (Value root) in
             let interval := if decide (interval < 0) then int_add interval 12 else interval in
             intervals ++ [interval]) [] notes in
  sort_Ints intervals.

Definition toMatch (chordDef : Chord) : Match :=
  Match.mk (Chord.Name chordDef) (Chord.Intervals chordDef).

Definition FindMatches (intervals : list Z) : list Match :=
  let intervalSet : gset Z := foldl (λ set i, {[i]} ∪ set) ∅ intervals in
  foldl (append_if (λ chordDef, fst (Chord.Check chordDef intervals intervalSet)) toMatch)
        [] chordDictionary.

(** ** Key logic *)

Module Key.
Record t := mk { Name : string; Notes : gset Z }.
End Key.
Abbreviation Key := Key.t.

Module KeyMatch.
Record t := mk { Name : string; MatchCount : Z }.

(** The comparison closure handed to [sort.Slice] in [Estimate]. *)
Definition less (a b : t) : bool :=
  if negb (MatchCount a =? MatchCount b) then MatchCount b <? MatchCount a
  else String.ltb (Name a) (Name b).
End KeyMatch.
Abbreviation KeyMatch := KeyMatch.t.

Definition noteNames : list string :=
  ["C"; "C#"; "D"; "D#"; "E"; "F"; "F#"; "G"; "G#"; "A"; "A#"; "B"].
Definition flatNames : list string :=
  ["C"; "Db"; "D"; "Eb"; "E"; "F"; "Gb"; "G"; "Ab"; "A"; "Bb"; "B"].
Definition majorPattern : list Z := [0; 2; 4; 5; 7; 9; 11].
Definition minorPattern : list Z := [0; 2; 3; 5; 7; 8; 10].

(** The pitch classes of the scale with the given pattern on root [i]. *)
Definition scaleNotes (i : Z) (pattern : list Z) : gset Z :=
  foldl (λ notes interval, {[int_rem (int_add i interval) 12]} ∪ notes) ∅ pattern.

(** The package's [init]: the loop [for i := 0; i < 12; i++] appends a major
    and then a minor key for every root. *)
Definition keySignatures : list Key :=
  foldl (λ keySignatures i,
           let majorNotes := scaleNotes i majorPattern in
           let keySignatures :=
             keySignatures ++ [Key.mk (flatNames !!! Z.to_nat i +:+ " Major") majorNotes] in
           let minorNotes := scaleNotes i minorPattern in
           keySignatures ++ [Key.mk (noteNames !!! Z.to_nat i +:+ " Minor") minorNotes])
        [] (seqZ 0 12).

(** The inner loop of [Estimate]: how many of the notes lie in the key.  The
    counter is bounded by the length of the slice, itself an [int], so the
    increment cannot wrap. *)
Definition countIn (keySig : Key) (uniqueNotes : list Note) : Z :=
  foldl (λ count n, if decide (Value n ∈ Key.Notes keySig) then count + 1 else count)
        0 uniqueNotes.

Definition Estimate (notes : list Note) : list KeyMatch :=
  if decide (length notes = 0%nat) then [] else
  let matches :=
    foldl (λ matches keySig,
             let uniqueNotes := Unique notes in
             let count := countIn keySig uniqueNotes in
             if decide (count > 0) then matches ++ [KeyMatch.mk (Key.Name keySig) count]
             else matches) [] keySignatures in
  sort_Slice KeyMatch.less matches.


(** A case table without any pair beyond ASCII, to run the parsers on
    concrete tokens. *)
Definition ascii_tables : CaseTables := {| To_UpperCase := id; To_TitleCase := id |}.

(** ** Vocabulary of the properties *)

(** The values that are pitch classes. *)
Definition pitch_class (v : Z) : Prop := 0 ≤ v ≤ 11.

(** The offsets for which the sum with a pitch class neither wraps nor is
    negative; the formulas of the dictionary and the results of
    [CalculateIntervals] on notes of the engine are among them. *)
Definition offset_ok (offset : Z) : Prop := 0 ≤ offset ≤ 2 ^ 63 - 12.

(** [n] at index [i] is the first note of its pitch class. *)
Definition first_of_class (notes : list Note) (i : nat) (n : Note) : Prop :=
  notes !! i = Some n ∧
  ∀ j m, (j < i)%nat → notes !! j = Some m → Value m ≠ Value n.

(** "Before or equal" for a comparison closure: the order in which a sort
    leaves its slice. *)
Definition ordered_by {A} (less : A → A → bool) (a b : A) : Prop :=
  less a b = true ∨ a = b.

(** What the closure decides: more matches first, then the smaller name. *)
Definition ranked_before (a b : KeyMatch) : Prop :=
  KeyMatch.MatchCount b < KeyMatch.MatchCount a ∨
  (KeyMatch.MatchCount a = KeyMatch.MatchCount b ∧
   (KeyMatch.Name a ?= KeyMatch.Name b)%string = Lt).

(** The entry of a key in the ranking, before the keys without a match are
    discarded. *)
Definition keyCount (notes : list Note) (keySig : Key) : KeyMatch :=
  KeyMatch.mk (Key.Name keySig) (countIn keySig (Unique notes)).

(** The entries of the ranking in the words of the specification: for each
    key the number of distinct pitch classes of the input that lie in the
    key's set, the keys without any being left out. *)
Definition spec_entries (notes : list Note) : list KeyMatch :=
  filter (λ km, 0 < KeyMatch.MatchCount km)
         ((λ keySig,
             KeyMatch.mk (Key.Name keySig)
                         (Z.of_nat (size (list_to_set (Value <$> notes) ∩ Key.Notes keySig))))
            <$> keySignatures).

(** How the scan of the dictionary ends for a root and a quality: with the
    first definition that lists the quality among its suffixes, or with the
    error that names the quality when no definition does. *)
Definition quality_outcome (rootNote : Note) (quality : string)
    (r : result (Note * Chord)) : Prop :=
  (∃ i chordDef,
      chordDictionary !! i = Some chordDef ∧ quality ∈ Chord.Suffixes chordDef ∧
      (∀ j c, (j < i)%nat → chordDictionary !! j = Some c → quality ∉ Chord.Suffixes c) ∧
      r = Ok (rootNote, chordDef))
  ∨ ((∀ c, c ∈ chordDictionary → quality ∉ Chord.Suffixes c) ∧
     r = Err ("unknown chord quality: '" +:+ quality +:+ "'")).

(** The notes C, D, E, F, G, A as parsed from their names. *)
Definition notes_CDEFGA : list Note :=
  [mkNote "C" 0; mkNote "D" 2; mkNote "E" 4; mkNote "F" 5; mkNote "G" 7; mkNote "A" 9].

(** The tokens without a byte beyond ASCII. *)
Definition is_ascii (s : string) : Prop := Forall (λ b, b < RuneSelf) (bytes_of_string s).

(** Upper case within ASCII, byte by byte. *)
Definition ascii_upper (b : Z) : Z := if in_range 97 122 b then b - 32 else b.
Definition upper_string (s : string) : string :=
  string_of_bytes (ascii_upper <$> bytes_of_string s).

(** The spellings of a note: a letter from A to G in either case, alone or
    followed by one of the accidentals [#], [b] and [B]. *)
Definition note_letter (b : Z) : bool := in_range 65 71 b || in_range 97 103 b.
Definition accidental (b : Z) : bool := (b =? 35) || (b =? 98) || (b =? 66).
Definition note_token (s : string) : bool :=
  match bytes_of_string s with
  | [l] => note_letter l
  | [l; a] => note_letter l && accidental a
  | _ => false
  end.

(** The pitch class of a spelling: that of the letter in the scale of C
    major, raised by a sharp and lowered by a flat, modulo 12. *)
Definition letter_class (l : Z) : Z :=
  match ascii_upper l with
  | 67 => 0 | 68 => 2 | 69 => 4 | 70 => 5 | 71 => 7 | 65 => 9 | _ => 11
  end.
Definition token_class (s : string) : Z :=
  match bytes_of_string s with
  | [l] => letter_class l
  | [l; a] => (letter_class l + (if a =? 35 then 1 else -1)) mod 12
  | _ => 0
  end.

(** The ASCII strings of one and of two bytes. *)
Definition short_ascii_strings : list string :=
  ((λ b, string_of_bytes [b]) <$> seqZ 0 128)
  ++ (seqZ 0 128 ≫= λ b1, (λ b2, string_of_bytes [b1; b2]) <$> seqZ 0 128).

(** The table agrees with the description of the spellings on a string. *)
Definition token_check (s : string) : bool :=
  match noteMap !! upper_string s with
  | Some v => note_token s && (v =? token_class s)
  | None => negb (note_token s)
  end.

(** The body of the loop of [CalculateIntervals]: the interval from the root
    up to a note. *)
Definition intervalFrom (root n : Note) : Z :=
  let interval := int_sub (Value n) (Value root) in
  if decide (interval < 0) then int_add interval 12 else interval.

(** Equality of notes, definitions and results is decidable. *)
#[global] Instance Note_eq_dec : EqDecision Note.
Proof. solve_decision. Defined.
#[global] Instance Chord_eq_dec : EqDecision Chord.
Proof. solve_decision. Defined.
#[global] Instance result_eq_dec {A} `{EqDecision A} : EqDecision (result A).
Proof. solve_decision. Defined.

(** The spellings of notes, listed. *)
Definition note_tokens : list string := filter (λ s, note_token s) short_ascii_strings.

(** * Properties *)

(** ** Loops that build a set or a slice *)

Lemma foldl_set_insert (l : list Z) (acc : gset Z) :
  foldl (λ set i, {[i]} ∪ set) acc l = list_to_set l ∪ acc.
Proof.
  revert acc. induction l as [|x l IH]; intros acc; simpl.
  - set_solver.
  - rewrite IH. set_solver.
Qed.

Lemma foldl_append_if {A B} (p : A → bool) (f : A → B) (l : list A) (acc : list B) :
  foldl (append_if p f) acc l = acc ++ (f <$> filter (λ x, p x) l).
Proof.
  revert acc. induction l as [|x l IH]; intros acc; simpl.
  - by rewrite app_nil_r.
  - rewrite IH. unfold append_if. rewrite filter_cons.
    destruct (p x); simpl; [|done].
    by rewrite <- app_assoc.
Qed.

(** ** Unique *)

Lemma Unique_loop_seen (notes : list Note) :
  fst (foldl Unique_step (∅, []) notes) = list_to_set (Value <$> notes).
Proof.
  induction notes as [|n notes IH] using rev_ind; [done|].
  rewrite foldl_app, fmap_app, list_to_set_app_L. simpl.
  destruct (foldl Unique_step (∅, []) notes) as [seen acc]. simpl in *. subst seen.
  case_decide; simpl; set_solver.
Qed.

Lemma Unique_snoc (notes : list Note) (n : Note) :
  Unique (notes ++ [n]) =
  if decide (Value n ∈ Value <$> notes) then Unique notes else Unique notes ++ [n].
Proof.
  unfold Unique. rewrite foldl_app. simpl.
  pose proof (Unique_loop_seen notes) as Hseen.
  destruct (foldl Unique_step (∅, []) notes) as [seen acc]. simpl in *. subst seen.
  repeat case_decide; simpl; try done; set_solver.
Qed.

Lemma Unique_values (notes : list Note) (v : Z) :
  v ∈ Value <$> Unique notes ↔ v ∈ Value <$> notes.
Proof.
  induction notes as [|n notes IH] using rev_ind; [done|].
  rewrite Unique_snoc. case_decide; rewrite ?fmap_app; set_solver.
Qed.

Lemma Unique_NoDup (notes : list Note) : NoDup (Value <$> Unique notes).
Proof.
  induction notes as [|n notes IH] using rev_ind; [constructor|].
  rewrite Unique_snoc. case_decide as Hin; [done|].
  rewrite fmap_app. apply NoDup_app. split_and!; [done| |apply NoDup_singleton].
  intros v Hv Hv'. apply Hin. simpl in Hv'. apply list_elem_of_singleton in Hv'. subst v.
  by apply Unique_values.
Qed.

Lemma Unique_idemp (notes : list Note) : Unique (Unique notes) = Unique notes.
Proof.
  induction notes as [|n notes IH] using rev_ind; [done|].
  rewrite Unique_snoc. case_decide as Hin; [done|].
  rewrite Unique_snoc, IH. rewrite decide_False; [done|].
  by rewrite Unique_values.
Qed.

Lemma Unique_sublist (notes : list Note) : Unique notes `sublist_of` notes.
Proof.
  induction notes as [|n notes IH] using rev_ind; [done|].
  rewrite Unique_snoc. case_decide.
  - by apply sublist_inserts_r.
  - by apply sublist_app.
Qed.

Lemma Unique_first (notes : list Note) (n : Note) :
  n ∈ Unique notes ↔ ∃ i, first_of_class notes i n.
Proof.
  induction notes as [|n' notes IH] using rev_ind.
  { split; [by intros ?%elem_of_nil|]. by intros (i & ? & _). }
  assert (Hold : ∀ i, (i < length notes)%nat →
            first_of_class (notes ++ [n']) i n ↔ first_of_class notes i n).
  { intros i Hi. unfold first_of_class. rewrite lookup_app_l by done.
    split; intros [Hn Hfirst]; (split; [done|]); intros j m Hj Hm.
    - apply (Hfirst j m Hj). by rewrite lookup_app_l by lia.
    - apply (Hfirst j m Hj). by rewrite lookup_app_l in Hm by lia. }
  assert (Hlast : first_of_class (notes ++ [n']) (length notes) n ↔
            n = n' ∧ Value n' ∉ Value <$> notes).
  { unfold first_of_class. rewrite list_lookup_middle by done. split.
    - intros [ [= <-] Hfirst]. split; [done|].
      intros (m & Hv & (j & Hj)%list_elem_of_lookup)%list_elem_of_fmap.
      apply (Hfirst j m); [by eapply lookup_lt_Some|by rewrite lookup_app_l by (by eapply lookup_lt_Some)|done].
    - intros [-> Hnew]. split; [done|]. intros j m Hj Hm Hv.
      rewrite lookup_app_l in Hm by done. apply Hnew. rewrite <- Hv.
      apply list_elem_of_fmap. exists m. split; [done|]. by eapply list_elem_of_lookup_2. }
  assert (Hsplit : (∃ i, first_of_class (notes ++ [n']) i n) ↔
            (∃ i, first_of_class notes i n) ∨ (n = n' ∧ Value n' ∉ Value <$> notes)).
  { split.
    - intros [i Hi]. destruct (decide (i < length notes)%nat) as [Hlt|Hge].
      + left. exists i. by apply Hold.
      + right. apply Hlast. assert (i = length notes) as ->; [|done].
        destruct Hi as [Hi%lookup_lt_Some _]. rewrite length_app in Hi. simpl in Hi. lia.
    - intros [[i Hi]|Hnew].
      + exists i. apply Hold; [|done]. destruct Hi as [Hi%lookup_lt_Some _]. done.
      + exists (length notes). by apply Hlast. }
  rewrite Hsplit, <- IH, Unique_snoc.
  case_decide as Hin.
  - split; [by left|]. intros [?| [_ ?] ]; done.
  - rewrite elem_of_app, list_elem_of_singleton. split.
    + intros [?| ->]; [by left|by right].
    + intros [?| [-> _] ]; [by left|by right].
Qed.

(** C7. [dedupe] is idempotent; it keeps exactly one note per pitch class of
    its input, and the note it keeps for a class is the first one of that
    class, spelling included; the notes kept stand in the order of the input.
    The last conjunct says it with one equation: a note appended to the input
    is appended to the result exactly when its class is new. *)
Theorem Unique_dedupe (x : list Note) :
  Unique (Unique x) = Unique x
  ∧ NoDup (Value <$> Unique x)
  ∧ (∀ v, v ∈ Value <$> Unique x ↔ v ∈ Value <$> x)
  ∧ (∀ n, n ∈ Unique x ↔ ∃ i, first_of_class x i n)
  ∧ Unique x `sublist_of` x
  ∧ (∀ n, Unique (x ++ [n]) =
          if decide (Value n ∈ Value <$> x) then Unique x else Unique x ++ [n]).
Proof.
  split_and!.
  - apply Unique_idemp.
  - apply Unique_NoDup.
  - apply Unique_values.
  - apply Unique_first.
  - apply Unique_sublist.
  - apply Unique_snoc.
Qed.

(** ** Sorting *)

Lemma StronglySorted_weaken {A} (R R' : A → A → Prop) (l : list A) :
  (∀ a b, R a b → R' a b) → StronglySorted R l → StronglySorted R' l.
Proof.
  intros Himpl. induction 1 as [|x l Hl IH Hx]; constructor; [done|].
  eapply Forall_impl; [exact Hx|]. intros y. apply Himpl.
Qed.

Section Sorting.
Context {A : Type} (less : A → A → bool).

Lemma insert_sorted_perm (x : A) (l : list A) : insert_sorted less x l ≡ₚ x :: l.
Proof.
  induction l as [|y l IH]; simpl; [done|].
  destruct (less x y); [done|].
  rewrite IH. apply perm_swap.
Qed.

Lemma sort_Slice_perm (l : list A) : sort_Slice less l ≡ₚ l.
Proof.
  induction l as [|x l IH]; [done|].
  unfold sort_Slice in *. simpl. rewrite insert_sorted_perm. by rewrite IH.
Qed.

(** [less] is a strict total order. *)
Hypothesis less_irrefl : ∀ a, less a a = false.
Hypothesis less_trans : ∀ a b c, less a b = true → less b c = true → less a c = true.
Hypothesis less_total : ∀ a b, less a b = true ∨ a = b ∨ less b a = true.

Lemma ordered_by_trans (a b c : A) :
  ordered_by less a b → ordered_by less b c → ordered_by less a c.
Proof.
  intros [Hab| ->] [Hbc| ->]; unfold ordered_by; eauto.
Qed.

Lemma ordered_by_antisym (a b : A) : ordered_by less a b → ordered_by less b a → a = b.
Proof.
  intros [Hab| ->] [Hba|Heq]; try done.
  pose proof (less_trans _ _ _ Hab Hba) as Haa. by rewrite less_irrefl in Haa.
Qed.

Lemma insert_sorted_sorted (x : A) (l : list A) :
  StronglySorted (ordered_by less) l → StronglySorted (ordered_by less) (insert_sorted less x l).
Proof.
  induction 1 as [|y l Hsorted IH Hy]; simpl.
  - repeat constructor.
  - destruct (less x y) eqn:Hxy.
    + constructor; [by constructor|].
      constructor; [by left|].
      eapply Forall_impl; [exact Hy|]. intros z Hz.
      eapply ordered_by_trans; [|exact Hz]. by left.
    + constructor; [done|].
      rewrite insert_sorted_perm. constructor; [|done].
      destruct (less_total x y) as [?| [->|?] ]; [congruence|by right|by left].
Qed.

Lemma sort_Slice_sorted (l : list A) : StronglySorted (ordered_by less) (sort_Slice less l).
Proof.
  induction l as [|x l IH]; [constructor|].
  by apply insert_sorted_sorted.
Qed.

(** The ordered permutation of a slice is unique: any sorting algorithm
    returns what [sort_Slice] returns. *)
Lemma sorted_perm_unique (l l' : list A) :
  l' ≡ₚ l → StronglySorted (ordered_by less) l' → l' = sort_Slice less l.
Proof.
  intros Hperm Hsorted.
  apply (StronglySorted_unique_strong (ordered_by less)); [|done|apply sort_Slice_sorted|].
  - intros a b _ _. apply ordered_by_antisym.
  - by rewrite sort_Slice_perm.
Qed.

Lemma sort_Slice_strict (l : list A) :
  NoDup l → StronglySorted (λ a b, less a b = true) (sort_Slice less l).
Proof.
  intros Hnodup. rewrite <- sort_Slice_perm in Hnodup.
  pose proof (sort_Slice_sorted l) as Hsorted.
  induction Hsorted as [|x k Hk IH Hx]; [constructor|].
  apply NoDup_cons in Hnodup as [Hnotin Hnodup].
  constructor; [by apply IH|].
  apply Forall_forall. intros y Hy.
  rewrite Forall_forall in Hx. destruct (Hx y Hy) as [?| ->]; [done|].
  by destruct Hnotin.
Qed.
End Sorting.

Lemma Zltb_irrefl (a : Z) : (a <? a) = false.
Proof. apply Z.ltb_irrefl. Qed.

Lemma Zltb_trans (a b c : Z) : (a <? b) = true → (b <? c) = true → (a <? c) = true.
Proof. rewrite !Z.ltb_lt. lia. Qed.

Lemma Zltb_total (a b : Z) : (a <? b) = true ∨ a = b ∨ (b <? a) = true.
Proof. rewrite !Z.ltb_lt. lia. Qed.

Lemma sort_Ints_perm (xs : list Z) : sort_Ints xs ≡ₚ xs.
Proof. apply sort_Slice_perm. Qed.

Lemma sort_Ints_sorted (xs : list Z) : StronglySorted Z.le (sort_Ints xs).
Proof.
  eapply StronglySorted_weaken; [|apply (sort_Slice_sorted Z.ltb Zltb_trans Zltb_total)].
  intros a b [Hlt%Z.ltb_lt| ->]; lia.
Qed.

(** ** The chord dictionary and subset matching *)

Lemma chordDictionary_NoDup_offsets :
  Forall (λ chordDef, NoDup (Chord.Intervals chordDef)) chordDictionary.
Proof. apply (bool_decide_unpack _). by vm_compute. Qed.

Lemma size_list_to_set_le (l : list Z) : (size (list_to_set l : gset Z) ≤ length l)%nat.
Proof.
  induction l as [|x l IH]; simpl; [done|].
  rewrite size_union_alt.
  rewrite size_singleton.
  assert (size ((list_to_set l : gset Z) ∖ {[x]}) ≤ size (list_to_set l : gset Z))%nat
    by (apply subseteq_size; set_solver).
  lia.
Qed.

(** A formula without repeated offsets that lies within the input has at
    most as many offsets as the input has distinct values. *)
Lemma offsets_within_size (offsets inputIntervals : list Z) :
  NoDup offsets → (∀ o, o ∈ offsets → o ∈ inputIntervals) →
  (length offsets ≤ size (list_to_set inputIntervals : gset Z))%nat.
Proof.
  intros Hnodup Hsub.
  rewrite <- (size_list_to_set (C := gset Z) offsets) by done.
  apply subseteq_size. set_solver.
Qed.

(** What [Check] decides: the length guard, then membership of every
    required offset. *)
Lemma Check_true (c : Chord) (inputIntervals : list Z) (inputSet : gset Z) :
  fst (Chord.Check c inputIntervals inputSet) = true ↔
  (length (Chord.Intervals c) ≤ length inputIntervals)%nat ∧
  ∀ o, o ∈ Chord.Intervals c → o ∈ inputSet.
Proof.
  unfold Chord.Check. case_decide as Hlen; simpl; [split; [done|lia]|].
  destruct (list_find _ _) as [[i o]|] eqn:Hfind; simpl.
  - apply list_find_Some in Hfind as (Hi & Hmissing & _).
    split; [done|]. intros [_ Hall]. destruct Hmissing. eapply Hall, list_elem_of_lookup_2, Hi.
  - apply list_find_None in Hfind. rewrite Forall_forall in Hfind.
    split; [|done]. intros _. split; [lia|]. intros o Ho.
    destruct (decide (o ∈ inputSet)); [done|]. by destruct (Hfind o Ho).
Qed.

Lemma FindMatches_elem (inputIntervals : list Z) (m : Match) :
  m ∈ FindMatches inputIntervals ↔
  ∃ chordDef, chordDef ∈ chordDictionary ∧ m = toMatch chordDef ∧
    (length (Chord.Intervals chordDef) ≤ length inputIntervals)%nat ∧
    ∀ o, o ∈ Chord.Intervals chordDef → o ∈ inputIntervals.
Proof.
  unfold FindMatches. rewrite foldl_append_if, foldl_set_insert. simpl.
  rewrite list_elem_of_fmap. split.
  - intros (c & -> & [Hc Hin]%list_elem_of_filter).
    apply Is_true_true, Check_true in Hc as [Hlen Hall].
    exists c. split_and!; [done..|]. intros o Ho. specialize (Hall o Ho). set_solver.
  - intros (c & Hin & -> & Hlen & Hall). exists c. split; [done|].
    apply list_elem_of_filter. split; [|done].
    apply Is_true_true, Check_true. split; [done|]. intros o Ho. specialize (Hall o Ho). set_solver.
Qed.

(** C6. On the intervals [0,4,7] [findMatches] returns exactly one match,
    the major triad; the minor and the augmented triad are not among the
    names returned. *)
Theorem FindMatches_major_triad :
  FindMatches [0; 4; 7] = [Match.mk "Major Triad" [0; 4; 7]]
  ∧ "Major Triad" ∈ Match.Name <$> FindMatches [0; 4; 7]
  ∧ "Minor Triad" ∉ Match.Name <$> FindMatches [0; 4; 7]
  ∧ "Augmented Triad" ∉ Match.Name <$> FindMatches [0; 4; 7].
Proof.
  assert (FindMatches [0; 4; 7] = [Match.mk "Major Triad" [0; 4; 7]]) as ->
    by (vm_compute; reflexivity).
  simpl. split_and!; [done|set_solver..].
Qed.

(** C3. A definition with [k] offsets is never matched by an input with
    fewer than [k] distinct values: [findMatches], a total function without an
    error result, returns a list that has no match for it. *)
Theorem FindMatches_too_few_distinct (I : list Z) (F : Chord) :
  (size (list_to_set I : gset Z) < length (Chord.Intervals F))%nat →
  toMatch F ∉ FindMatches I.
Proof.
  intros Hfew (c & Hc & Heq & _ & Hall)%FindMatches_elem.
  assert (Chord.Intervals F = Chord.Intervals c) as Hoffsets by (by injection Heq).
  pose proof chordDictionary_NoDup_offsets as Hnodup.
  rewrite Forall_forall in Hnodup.
  pose proof (offsets_within_size _ I (Hnodup c Hc) Hall). rewrite Hoffsets in Hfew. lia.
Qed.

Lemma FindMatches_too_few_distinct_witness :
  toMatch (Chord.mk "Major Triad" [""; "M"] [0; 4; 7]) ∉ FindMatches [4; 0; 4; 0].
Proof.
  apply FindMatches_too_few_distinct. vm_compute. lia.
Defined.

(** [Check] alone is monotonic for a formula whose offsets are distinct, as
    the data model requires of a chord definition. *)
Lemma Check_monotone (F : Chord) (I I' : list Z) :
  NoDup (Chord.Intervals F) →
  (∀ v, v ∈ I → v ∈ I') →
  fst (Chord.Check F I (list_to_set I)) = true →
  fst (Chord.Check F I' (list_to_set I')) = true.
Proof.
  intros Hnodup Hsub [_ Hall]%Check_true. apply Check_true.
  assert (∀ o, o ∈ Chord.Intervals F → o ∈ I') as Hall'.
  { intros o Ho. apply Hsub. specialize (Hall o Ho). set_solver. }
  split; [|intros o Ho; specialize (Hall' o Ho); set_solver].
  etrans; [by apply (offsets_within_size _ I' Hnodup)|].
  apply size_list_to_set_le.
Qed.

(** The length guard compares lengths of slices: a formula that repeated
    an offset, which no definition of the dictionary does, could lose its
    match when the input is replaced by one with the same values. *)
Remark Check_repeated_offset :
  let F := Chord.mk "unison" [] [0; 0] in
  fst (Chord.Check F [0; 0] (list_to_set [0; 0])) = true
  ∧ fst (Chord.Check F [0] (list_to_set [0])) = false.
Proof. split; vm_compute; reflexivity. Qed.

(** C8. Subset matching is monotonic: a definition matched on [I] has all
    its offsets in [I], and it is matched on every [I'] that contains the
    values of [I]; extra intervals never remove a match. *)
Theorem FindMatches_monotone (I I' : list Z) (F : Chord) :
  toMatch F ∈ FindMatches I →
  (∀ v, v ∈ I → v ∈ I') →
  (∀ o, o ∈ Chord.Intervals F → o ∈ I) ∧ toMatch F ∈ FindMatches I'.
Proof.
  intros (c & Hc & Heq & Hlen & Hall)%FindMatches_elem Hsub.
  assert (Chord.Intervals F = Chord.Intervals c) as Hoffsets by (by injection Heq).
  rewrite Hoffsets. split; [done|].
  pose proof chordDictionary_NoDup_offsets as Hnodup.
  rewrite Forall_forall in Hnodup.
  assert (fst (Chord.Check c I' (list_to_set I')) = true) as [Hlen' Hall']%Check_true.
  { apply (Check_monotone c I I' (Hnodup c Hc) Hsub), Check_true.
    split; [done|]. intros o Ho. specialize (Hall o Ho). set_solver. }
  apply FindMatches_elem. exists c. split_and!; [done..|].
  intros o Ho. specialize (Hall' o Ho). set_solver.
Qed.

Lemma FindMatches_monotone_witness :
  (∀ o, o ∈ [0; 4; 7] → o ∈ [0; 4; 7]) ∧
  toMatch (Chord.mk "Major Triad" [""; "M"] [0; 4; 7]) ∈ FindMatches [0; 2; 4; 7; 10].
Proof.
  apply (FindMatches_monotone [0; 4; 7] [0; 2; 4; 7; 10]
           (Chord.mk "Major Triad" [""; "M"] [0; 4; 7])).
  - vm_compute. left.
  - intros v Hv. set_solver.
Defined.

(** ** Generated notes, intervals and rendering *)

Lemma int_wrap_small (z : Z) : - 2 ^ 63 ≤ z < 2 ^ 63 → int_wrap z = z.
Proof. intros Hz. unfold int_wrap. rewrite Z.mod_small; lia. Qed.

Lemma index_valueToName (v : Z) (name : string) :
  index valueToName v = Some name → pitch_class v ∧ name ≠ "".
Proof.
  unfold index. case_decide as Hv; [|done]. intros Hname.
  pose proof (lookup_lt_Some _ _ _ Hname) as Hlt. simpl in Hlt.
  split; [unfold pitch_class; lia|].
  apply list_elem_of_lookup_2 in Hname. intros ->. set_solver.
Qed.

Lemma index_valueToName_is_Some (v : Z) : pitch_class v → is_Some (index valueToName v).
Proof.
  intros [Hlo Hhi]. unfold index. rewrite decide_True by done.
  apply lookup_lt_is_Some. simpl. lia.
Qed.

Lemma GenerateNotes_Forall2 (root : Note) (offsets : list Z) (notes : list Note) :
  GenerateNotes root offsets = Some notes →
  Forall2 (λ offset n,
             Value n = int_rem (int_add (Value root) offset) 12 ∧
             index valueToName (Value n) = Some (Original n)) offsets notes.
Proof.
  intros Hgen%mapM_Some. eapply Forall2_impl; [exact Hgen|].
  intros offset n Hn. simpl in Hn.
  destruct (index valueToName _) as [name|] eqn:Hname; [|done].
  simpl in Hn. injection Hn as <-. done.
Qed.

(** C2, as the code has it.  Whenever [generateNotes] returns, the note it
    built for an offset has the pitch class [(root + offset) % 12] and
    carries as [Original] the sharp-based name of that class in
    [valueToName], which is never the empty string. *)
Theorem GenerateNotes_canonical_spelling (root : Note) (offsets : list Z) (notes : list Note) :
  GenerateNotes root offsets = Some notes →
  Forall2 (λ offset n,
             Value n = int_rem (int_add (Value root) offset) 12 ∧
             index valueToName (Value n) = Some (Original n) ∧
             Original n ≠ "") offsets notes.
Proof.
  intros Hgen%GenerateNotes_Forall2. eapply Forall2_impl; [exact Hgen|].
  intros offset n [Hvalue Hname]. split_and!; [done..|].
  by apply index_valueToName in Hname as [_ ?].
Qed.

Lemma GenerateNotes_canonical_spelling_witness :
  Forall2 (λ offset n,
             Value n = int_rem (int_add 9 offset) 12 ∧
             index valueToName (Value n) = Some (Original n) ∧
             Original n ≠ "")
          [0; 3; 7; 10] [mkNote "A" 9; mkNote "C" 0; mkNote "E" 4; mkNote "G" 7].
Proof.
  apply (GenerateNotes_canonical_spelling (mkNote "A" 9)). vm_compute. reflexivity.
Defined.

(** C2, as the specification words it, fails: the notes generated for the
    minor triad on A are spelled "A", "C" and "E". *)
Lemma GenerateNotes_Original_not_empty :
  ¬ (∀ notes, GenerateNotes (mkNote "A" 9) [0; 3; 7] = Some notes →
              Forall (λ n, Original n = "") notes).
Proof.
  intros Hclaim.
  specialize (Hclaim [mkNote "A" 9; mkNote "C" 0; mkNote "E" 4]).
  assert (GenerateNotes (mkNote "A" 9) [0; 3; 7]
          = Some [mkNote "A" 9; mkNote "C" 0; mkNote "E" 4]) as Hgen
    by (vm_compute; reflexivity).
  apply Hclaim, Forall_cons in Hgen as [Hempty _]. discriminate Hempty.
Qed.

Lemma GenerateNotes_in_range (root : Note) (offsets : list Z) (notes : list Note) :
  GenerateNotes root offsets = Some notes → Forall (λ n, pitch_class (Value n)) notes.
Proof.
  intros Hgen%GenerateNotes_Forall2. apply Forall2_Forall_r with (1 := Hgen).
  apply Forall_forall. intros offset _ n [_ Hname].
  by apply index_valueToName in Hname as [? _].
Qed.

Lemma GenerateNotes_no_panic (root : Note) (offsets : list Z) :
  pitch_class (Value root) → Forall offset_ok offsets → is_Some (GenerateNotes root offsets).
Proof.
  intros [Hlo Hhi] Hoffsets. apply mapM_is_Some.
  eapply Forall_impl; [exact Hoffsets|]. intros offset [Hge Hle]. simpl.
  unfold int_add, int_rem. rewrite int_wrap_small by lia.
  destruct (index_valueToName_is_Some (Z.rem (Value root + offset) 12)) as [name ->];
    [|done].
  pose proof (Z.rem_bound_pos (Value root + offset) 12). unfold pitch_class. lia.
Qed.

(** Outside of them the index expression can leave the table: Go's [%]
    keeps the sign of a negative sum. *)
Remark GenerateNotes_negative_offset : GenerateNotes (mkNote "C" 0) [-1] = None.
Proof. vm_compute. reflexivity. Qed.

(** C10, as the specification words it, fails: the root C is a note that
    [ParseNote] produces, and on it [GenerateNotes] leaves the table for the
    offset -1, so that it does not return for every list of offsets. *)
Lemma GenerateNotes_panics_on_parsed_root :
  (∀ tables : CaseTables, @ParseNote tables "C" = Ok (mkNote "C" 0))
  ∧ pitch_class (Value (mkNote "C" 0))
  ∧ ¬ is_Some (GenerateNotes (mkNote "C" 0) [-1])
  ∧ ¬ (∀ root offsets, pitch_class (Value root) → is_Some (GenerateNotes root offsets)).
Proof.
  assert (GenerateNotes (mkNote "C" 0) [-1] = None) as Hpanic by (vm_compute; reflexivity).
  assert (pitch_class (Value (mkNote "C" 0))) as Hroot by (unfold pitch_class; simpl; lia).
  split_and!; [intros tables; vm_compute; reflexivity|done| |].
  - rewrite Hpanic. by intros [? ?].
  - intros Hclaim. specialize (Hclaim (mkNote "C" 0) [-1] Hroot).
    rewrite Hpanic in Hclaim. by destruct Hclaim.
Qed.

Lemma foldl_append_map {A B} (f : A → B) (l : list A) (acc : list B) :
  foldl (λ acc x, acc ++ [f x]) acc l = acc ++ (f <$> l).
Proof.
  revert acc. induction l as [|x l IH]; intros acc; simpl.
  - by rewrite app_nil_r.
  - rewrite IH. by rewrite <- app_assoc.
Qed.

Lemma CalculateIntervals_in_range (root : Note) (notes : list Note) :
  pitch_class (Value root) → Forall (λ n, pitch_class (Value n)) notes →
  Forall pitch_class (CalculateIntervals root notes).
Proof.
  intros Hroot Hnotes. unfold CalculateIntervals.
  rewrite sort_Ints_perm.
  rewrite (foldl_append_map
             (λ n, let interval := int_sub (Value n) (Value root) in
                   if decide (interval < 0) then int_add interval 12 else interval)).
  simpl. apply Forall_fmap. eapply Forall_impl; [exact Hnotes|].
  intros n Hn. simpl. unfold pitch_class, int_sub, int_add in *.
  rewrite (int_wrap_small (Value n - Value root)) by lia.
  case_decide; [rewrite int_wrap_small by lia|]; lia.
Qed.

Lemma SliceToString_no_panic (notes : list Note) :
  Forall (λ n, pitch_class (Value n)) notes → is_Some (SliceToString notes).
Proof.
  intros Hnotes. unfold SliceToString.
  destruct (mapM _ notes) as [parts|] eqn:Hparts; [by eexists|].
  assert (is_Some (mapM (λ n, if decide (Original n = "")
                              then index valueToName (Value n)
                              else Some (Original n)) notes)) as [? Hsome];
    [|by rewrite Hsome in Hparts].
  apply mapM_is_Some. eapply Forall_impl; [exact Hnotes|].
  intros n Hn. simpl. case_decide; [by apply index_valueToName_is_Some|done].
Qed.

(** ** Key estimation *)

(** The byte-wise lexicographic order of Go's [<] on strings. *)
Lemma string_compare_refl (s : string) : (s ?= s)%string = Eq.
Proof.
  pose proof (String.compare_antisym s s) as Hanti.
  destruct (s ?= s)%string; done.
Qed.

Lemma string_lt_trans (a b c : string) :
  (a ?= b)%string = Lt → (b ?= c)%string = Lt → (a ?= c)%string = Lt.
Proof.
  revert b c. induction a as [|x a IH]; intros [|y b] [|z c]; simpl; try done.
  unfold Ascii.compare.
  destruct (N.compare_spec (N_of_ascii x) (N_of_ascii y)) as [Hxy|Hxy|Hxy]; [|..|done];
    (destruct (N.compare_spec (N_of_ascii y) (N_of_ascii z)) as [Hyz|Hyz|Hyz]; [|..|done]);
    (destruct (N.compare_spec (N_of_ascii x) (N_of_ascii z)) as [Hxz|Hxz|Hxz]);
    try lia; try done.
  apply IH.
Qed.

Lemma KeyMatch_less_irrefl (a : KeyMatch) : KeyMatch.less a a = false.
Proof.
  unfold KeyMatch.less, String.ltb. rewrite Z.eqb_refl. simpl.
  by rewrite string_compare_refl.
Qed.

Lemma KeyMatch_less_ranked (a b : KeyMatch) : KeyMatch.less a b = true ↔ ranked_before a b.
Proof.
  unfold KeyMatch.less, ranked_before, String.ltb.
  destruct (Z.eqb_spec (KeyMatch.MatchCount a) (KeyMatch.MatchCount b)) as [Heq|Hne]; simpl.
  - destruct (_ ?= _)%string; split; try done; try (intros [?|[_ ?] ]; by try lia); by right.
  - rewrite Z.ltb_lt. split; [by left|]. intros [?|[? _] ]; done.
Qed.

Lemma KeyMatch_less_trans (a b c : KeyMatch) :
  KeyMatch.less a b = true → KeyMatch.less b c = true → KeyMatch.less a c = true.
Proof.
  rewrite !KeyMatch_less_ranked. unfold ranked_before.
  intros [Hab|[Hab Hnab] ] [Hbc|[Hbc Hnbc] ]; try (left; lia).
  right. split; [lia|]. by eapply string_lt_trans.
Qed.

Lemma KeyMatch_less_total (a b : KeyMatch) :
  KeyMatch.less a b = true ∨ a = b ∨ KeyMatch.less b a = true.
Proof.
  rewrite !KeyMatch_less_ranked. unfold ranked_before.
  destruct a as [na ca], b as [nb cb]. simpl.
  destruct (Z.lt_total ca cb) as [?|[->|?] ]; [right; right; by left| |by left; left].
  pose proof (String.compare_antisym nb na) as Hanti.
  destruct (na ?= nb)%string eqn:Hcmp.
  - apply String.compare_eq_iff in Hcmp as ->. by right; left.
  - left. by right.
  - right. right. right. by rewrite Hanti.
Qed.

Lemma countIn_length (keySig : Key) (uniqueNotes : list Note) :
  countIn keySig uniqueNotes
  = Z.of_nat (length (filter (λ n, Value n ∈ Key.Notes keySig) uniqueNotes)).
Proof.
  unfold countIn.
  enough (∀ acc, foldl (λ count n, if decide (Value n ∈ Key.Notes keySig)
                                    then count + 1 else count) acc uniqueNotes
                 = acc + Z.of_nat (length (filter (λ n, Value n ∈ Key.Notes keySig) uniqueNotes)))
    as Hgen by (rewrite Hgen; lia).
  induction uniqueNotes as [|n l IH]; intros acc; simpl; [lia|].
  rewrite IH, filter_cons. case_decide; simpl; lia.
Qed.

(** The count is the number of distinct pitch classes of the input that
    belong to the key. *)
Lemma countIn_Unique_size (keySig : Key) (notes : list Note) :
  countIn keySig (Unique notes)
  = Z.of_nat (size (list_to_set (Value <$> notes) ∩ Key.Notes keySig)).
Proof.
  rewrite countIn_length. f_equal.
  assert (list_to_set (Value <$> notes) ∩ Key.Notes keySig
          = (list_to_set (filter (λ v, v ∈ Key.Notes keySig) (Value <$> Unique notes)) : gset Z))
    as ->.
  { apply set_eq. intros v.
    rewrite elem_of_intersection, !elem_of_list_to_set, list_elem_of_filter, Unique_values.
    tauto. }
  rewrite size_list_to_set by apply NoDup_filter, Unique_NoDup.
  generalize (Unique notes). intros l.
  induction l as [|n l IH]; simpl; [done|].
  rewrite !filter_cons. simpl. case_decide; simpl; by rewrite IH.
Qed.

Lemma Estimate_loop (notes : list Note) (keys : list Key) (acc : list KeyMatch) :
  foldl (λ matches keySig,
           let uniqueNotes := Unique notes in
           let count := countIn keySig uniqueNotes in
           if decide (count > 0) then matches ++ [KeyMatch.mk (Key.Name keySig) count]
           else matches) acc keys
  = acc ++ filter (λ km, 0 < KeyMatch.MatchCount km) (keyCount notes <$> keys).
Proof.
  revert acc. induction keys as [|k keys IH]; intros acc; simpl.
  - by rewrite app_nil_r.
  - rewrite IH. rewrite filter_cons. simpl.
    repeat case_decide; try lia; [by rewrite <- app_assoc|done].
Qed.

Lemma keySignatures_names_NoDup : NoDup (Key.Name <$> keySignatures).
Proof. apply (bool_decide_unpack _). by vm_compute. Qed.

Lemma keySignatures_shape :
  length keySignatures = 24%nat ∧ Forall (λ keySig, size (Key.Notes keySig) = 7%nat) keySignatures.
Proof. split; [by vm_compute|]. apply (bool_decide_unpack _). by vm_compute. Qed.

Lemma Estimate_eq (notes : list Note) :
  Estimate notes
  = sort_Slice KeyMatch.less
      (filter (λ km, 0 < KeyMatch.MatchCount km) (keyCount notes <$> keySignatures)).
Proof.
  unfold Estimate. case_decide as Hlen.
  - apply nil_length_inv in Hlen as ->.
    by vm_compute.
  - by rewrite Estimate_loop.
Qed.

Lemma keyCount_spec_entries (notes : list Note) :
  filter (λ km, 0 < KeyMatch.MatchCount km) (keyCount notes <$> keySignatures)
  = spec_entries notes.
Proof.
  unfold spec_entries. f_equal. apply list_fmap_ext. intros _ keySig _.
  unfold keyCount. by rewrite countIn_Unique_size.
Qed.

Lemma spec_entries_NoDup (notes : list Note) : NoDup (spec_entries notes).
Proof.
  apply NoDup_filter, (NoDup_fmap_1 KeyMatch.Name).
  rewrite <- list_fmap_compose. apply keySignatures_names_NoDup.
Qed.

(** C4. [estimate] counts, for each of the 24 keys of 7 pitch classes, the
    notes of the deduplicated input that lie in the key, which is the number
    of distinct input pitch classes in the key; its result holds exactly the
    keys with a positive count, each once (nothing is cut off), ordered by
    count descending and, at equal counts, by name ascending. *)
Theorem Estimate_ranking (notes : list Note) :
  length keySignatures = 24%nat
  ∧ Forall (λ keySig, size (Key.Notes keySig) = 7%nat) keySignatures
  ∧ (∀ keySig, countIn keySig (Unique notes)
               = Z.of_nat (size (list_to_set (Value <$> notes) ∩ Key.Notes keySig)))
  ∧ Estimate notes ≡ₚ spec_entries notes
  ∧ StronglySorted ranked_before (Estimate notes).
Proof.
  destruct keySignatures_shape as [Hlen Hsize].
  split_and!; [done|done|intros; apply countIn_Unique_size|..];
    rewrite Estimate_eq, keyCount_spec_entries.
  - apply sort_Slice_perm.
  - eapply StronglySorted_weaken; [intros a b; apply KeyMatch_less_ranked|].
    apply sort_Slice_strict;
      [apply KeyMatch_less_trans|apply KeyMatch_less_total|apply spec_entries_NoDup].
Qed.

(** C1, as the code has it.  For notes of the pitch classes 0, 2, 4, 5, 7, 9
    four keys contain all six classes; they lead the ranking in the order of
    their names, so that "C Major", with 6 matches, comes second, after
    "A Minor". *)
Theorem Estimate_CDEFGA (notes : list Note) :
  Value <$> notes = [0; 2; 4; 5; 7; 9] →
  take 4 (Estimate notes)
  = [KeyMatch.mk "A Minor" 6; KeyMatch.mk "C Major" 6;
     KeyMatch.mk "D Minor" 6; KeyMatch.mk "F Major" 6].
Proof.
  intros Hvalues.
  destruct notes as [|[o0 v0] [|[o1 v1] [|[o2 v2] [|[o3 v3] [|[o4 v4] [|[o5 v5] [|? ?] ] ] ] ] ] ];
    try discriminate Hvalues.
  simpl in Hvalues. injection Hvalues as -> -> -> -> -> ->.
  vm_compute. reflexivity.
Qed.

Lemma Estimate_CDEFGA_witness :
  take 4 (Estimate notes_CDEFGA)
  = [KeyMatch.mk "A Minor" 6; KeyMatch.mk "C Major" 6;
     KeyMatch.mk "D Minor" 6; KeyMatch.mk "F Major" 6].
Proof.
  apply (Estimate_CDEFGA notes_CDEFGA). reflexivity.
Defined.

(** C1, as the specification words it, fails: the first entry for the notes
    C, D, E, F, G, A is "A Minor", not "C Major". *)
Lemma Estimate_CDEFGA_first_is_A_Minor :
  head (Estimate notes_CDEFGA) = Some (KeyMatch.mk "A Minor" 6)
  ∧ head (Estimate notes_CDEFGA) ≠ Some (KeyMatch.mk "C Major" 6).
Proof.
  assert (head (Estimate notes_CDEFGA) = Some (KeyMatch.mk "A Minor" 6)) as ->
    by (vm_compute; reflexivity).
  split; [done|]. intros [= ?].
Qed.

(** ** Parsing notes and chord names *)

Lemma bytes_of_string_range (s : string) : Forall (λ b, 0 ≤ b < 256) (bytes_of_string s).
Proof.
  unfold bytes_of_string. apply Forall_fmap, Forall_forall. intros c _. simpl.
  pose proof (N_ascii_bounded c). lia.
Qed.

Lemma string_of_bytes_of_string (s : string) : string_of_bytes (bytes_of_string s) = s.
Proof.
  unfold string_of_bytes, bytes_of_string.
  rewrite <- (string_of_list_ascii_of_string s) at 2. f_equal.
  induction (list_ascii_of_string s) as [|c l IH]; [done|].
  simpl. by rewrite N2Z.id, ascii_N_embedding, IH.
Qed.

Lemma bytes_of_string_of_bytes (bs : list Z) :
  Forall (λ b, 0 ≤ b < 256) bs → bytes_of_string (string_of_bytes bs) = bs.
Proof.
  intros Hbs. unfold string_of_bytes, bytes_of_string.
  rewrite list_ascii_of_string_of_list_ascii.
  induction Hbs as [|b bs Hb _ IH]; [done|].
  simpl. rewrite N_ascii_embedding by lia. rewrite Z2N.id by lia. by f_equal.
Qed.

Lemma string_of_bytes_app (l k : list Z) :
  string_of_bytes (l ++ k) = string_of_bytes l +:+ string_of_bytes k.
Proof.
  unfold string_of_bytes. induction l as [|b l IH]; [done|].
  simpl. by rewrite IH.
Qed.

Lemma string_of_bytes_length (bs : list Z) : String.length (string_of_bytes bs) = length bs.
Proof. unfold string_of_bytes. induction bs as [|b bs IH]; [done|]. simpl. by rewrite IH. Qed.

Lemma bytes_of_string_length (s : string) : length (bytes_of_string s) = String.length s.
Proof. by rewrite <- string_of_bytes_length, string_of_bytes_of_string. Qed.

Lemma utf8_decode_ascii (bs : list Z) :
  Forall (λ b, b < RuneSelf) bs → utf8_decode bs = bs.
Proof.
  induction 1 as [|b bs Hb _ IH]; [done|].
  simpl. apply Z.ltb_lt in Hb. by rewrite Hb, IH.
Qed.

Lemma utf8_encode_ascii (rs : list rune) :
  Forall (λ r, 0 ≤ r < 128) rs → string_of_runes rs = string_of_bytes rs.
Proof.
  intros Hrs. unfold string_of_runes. f_equal.
  induction Hrs as [|r rs Hr _ IH]; [done|].
  simpl. rewrite IH. unfold utf8_encode_rune, in_range.
  by rewrite (proj2 (Z.leb_le 0 r)), (proj2 (Z.leb_le r 127)) by lia.
Qed.

Lemma ascii_upper_range (b : Z) : 0 ≤ b < 128 → 0 ≤ ascii_upper b < 128 ∧ ascii_upper b ≠ 98.
Proof.
  unfold ascii_upper, in_range. intros Hb.
  destruct (97 <=? b) eqn:Hlo, (b <=? 122) eqn:Hhi; simpl; lia.
Qed.

Lemma strings_Replace1_absent (s : string) :
  98 ∉ bytes_of_string s → strings_Replace1 s "b" "B" = s.
Proof.
  induction s as [|c s IH]; [done|]. intros Habsent.
  assert (c ≠ "b"%char) as Hc.
  { intros ->. apply Habsent. unfold bytes_of_string. simpl. left. }
  assert (98 ∉ bytes_of_string s) as Hs.
  { intros Hin. apply Habsent. unfold bytes_of_string in *. simpl. by right. }
  change (strings_Replace1 (String c s) "b" "B")
    with (if String.prefix "b" (String c s) then "B" +:+ slice_from (String c s) 1
          else String c (strings_Replace1 s "b" "B")).
  destruct (String.prefix "b" (String c s)) eqn:Hprefix; [|by rewrite IH].
  apply prefix_correct in Hprefix. simpl in Hprefix. by injection Hprefix.
Qed.

Lemma filter_all {A} (P : A → Prop) `{!∀ x, Decision (P x)} (l : list A) :
  Forall P l → filter P l = l.
Proof.
  induction 1 as [|x l Hx _ IH]; [done|].
  by rewrite filter_cons, decide_True, IH.
Qed.


Lemma short_ascii_strings_checked : Forall (λ s, token_check s = true) short_ascii_strings.
Proof. apply (bool_decide_unpack _). by vm_compute. Qed.

Lemma noteMap_key_length (token : string) (value : Z) :
  noteMap !! token = Some value → (String.length token ≤ 2)%nat.
Proof.
  intros Hlookup%elem_of_list_to_map_2.
  change (String.length (token, value).1 ≤ 2)%nat.
  revert Hlookup. generalize (token, value). apply Forall_forall.
  repeat (constructor; [simpl; lia|]). constructor.
Qed.

Lemma elem_of_short_ascii_strings (bs : list Z) :
  Forall (λ b, 0 ≤ b < 128) bs → (1 ≤ length bs ≤ 2)%nat →
  string_of_bytes bs ∈ short_ascii_strings.
Proof.
  intros Hbs Hlen. unfold short_ascii_strings. apply elem_of_app.
  destruct bs as [|b1 [|b2 [|b3 bs] ] ]; simpl in Hlen; try lia.
  - left. apply list_elem_of_fmap. exists b1. split; [done|].
    apply Forall_cons in Hbs as [Hb1 _]. apply elem_of_seqZ. lia.
  - right. apply Forall_cons in Hbs as [Hb1 [Hb2 _]%Forall_cons].
    apply list_elem_of_bind. exists b1. split; [|apply elem_of_seqZ; lia].
    apply list_elem_of_fmap. exists b2. split; [done|]. apply elem_of_seqZ. lia.
Qed.

Lemma is_ascii_bytes (s : string) : is_ascii s → Forall (λ b, 0 ≤ b < 128) (bytes_of_string s).
Proof.
  unfold is_ascii, RuneSelf. intros Hascii.
  pose proof (bytes_of_string_range s) as Hrange.
  rewrite Forall_forall in Hascii, Hrange. apply Forall_forall. intros b Hb.
  specialize (Hascii b Hb). specialize (Hrange b Hb). simpl in *. lia.
Qed.

(** On every ASCII string the table agrees with the description of the
    spellings: strings of one or two bytes are checked one by one, longer
    ones are longer than every key of the table. *)
Lemma token_check_ascii (s : string) : is_ascii s → token_check s = true.
Proof.
  intros Hbs%is_ascii_bytes.
  destruct (decide (1 ≤ length (bytes_of_string s) ≤ 2)%nat) as [Hlen|Hlen].
  - pose proof short_ascii_strings_checked as Hshort. rewrite Forall_forall in Hshort.
    apply Hshort. rewrite <- (string_of_bytes_of_string s).
    by apply elem_of_short_ascii_strings.
  - unfold token_check, note_token.
    destruct (noteMap !! upper_string s) as [v|] eqn:Hlookup.
    + pose proof (noteMap_key_length _ _ Hlookup) as Hkey. unfold upper_string in *.
      rewrite string_of_bytes_length, length_fmap in Hkey.
      destruct (bytes_of_string s) as [|b1 [|b2 [|b3 bs] ] ]; simpl in *; try lia.
      by vm_compute in Hlookup.
    + destruct (bytes_of_string s) as [|b1 [|b2 [|b3 bs] ] ]; simpl in *; try done; lia.
Qed.

Lemma note_token_ascii (s : string) : note_token s = true → is_ascii s ∧ s ≠ "".
Proof.
  unfold note_token, is_ascii, note_letter, accidental, in_range, RuneSelf. intros Htoken.
  split; [|by intros ->].
  destruct (bytes_of_string s) as [|l [|a [|? ?] ] ]; try done.
  - repeat constructor. lia.
  - apply andb_true_iff in Htoken as [Hl Ha]. repeat constructor; lia.
Qed.


Section Parsing.
Context `{CaseTables}.

(** Only the empty string has no rune, so that [runes[0]] exists whenever
    [ParseNote] reaches it. *)
Lemma runes_of_string_nil (s : string) : runes_of_string s = [] ↔ s = "".
Proof.
  split; [|by intros ->].
  destruct s as [|c s]; [done|]. unfold runes_of_string. simpl.
  repeat case_match; discriminate.
Qed.

Lemma noteMap_values (token : string) (value : Z) :
  noteMap !! token = Some value → pitch_class value.
Proof.
  intros Hlookup%elem_of_list_to_map_2.
  change (pitch_class (token, value).2).
  revert Hlookup. generalize (token, value). apply Forall_forall.
  unfold pitch_class. repeat (constructor; [simpl; lia|]). constructor.
Qed.

Lemma ParseNote_Err_iff (s : string) :
  is_Err (ParseNote s) ↔ noteMap !! normalize s = None.
Proof.
  unfold ParseNote. case_decide as Hs.
  - subst s. split; [|done]. intros _. vm_compute. reflexivity.
  - destruct (noteMap !! normalize s); simpl; split; done.
Qed.

Lemma ParseNote_Ok (s : string) (n : Note) :
  ParseNote s = Ok n →
  s ≠ "" ∧ Original n = s ∧ noteMap !! normalize s = Some (Value n).
Proof.
  unfold ParseNote. case_decide as Hs; [done|].
  destruct (noteMap !! normalize s) as [value|]; [|done].
  by intros [= <-].
Qed.

Lemma unicode_case_ascii (rs : list rune) :
  Forall (λ r, 0 ≤ r < 128) rs →
  unicode_ToUpper <$> rs = ascii_upper <$> rs ∧ unicode_ToTitle <$> rs = ascii_upper <$> rs.
Proof.
  intros Hrs. split; apply list_fmap_ext; intros i r Hr;
    rewrite Forall_forall in Hrs; apply list_elem_of_lookup_2, Hrs in Hr;
    unfold unicode_ToUpper, unicode_ToTitle, ascii_upper, MaxASCII;
    by rewrite (proj2 (Z.leb_le r 127)) by lia.
Qed.

(** On an ASCII token the normalization is upper case byte by byte. *)
Lemma normalize_ascii (s : string) : is_ascii s → normalize s = upper_string s.
Proof.
  intros Hascii. unfold is_ascii in Hascii.
  pose proof (bytes_of_string_range s) as Hrange.
  assert (Forall (λ b, 0 ≤ b < 128) (bytes_of_string s)) as Hbs.
  { apply Forall_and in Hrange as [Hlo _]. unfold RuneSelf in Hascii.
    rewrite Forall_forall in Hlo, Hascii. apply Forall_forall. intros b Hb.
    specialize (Hlo b Hb). specialize (Hascii b Hb). simpl in *. lia. }
  assert (∀ l, Forall (λ b, 0 ≤ b < 128) l → Forall (λ b, 0 ≤ b < 128) (ascii_upper <$> l))
    as Hupper.
  { intros l Hl. apply Forall_fmap. eapply Forall_impl; [exact Hl|].
    intros b Hb. by apply ascii_upper_range. }
  unfold normalize, runes_of_string. rewrite utf8_decode_ascii by done.
  set (bs := bytes_of_string s) in *.
  assert (string_of_runes (unicode_ToTitle <$> take 1 bs)
          = string_of_bytes (ascii_upper <$> take 1 bs)) as Htitle.
  { assert (Forall (λ b, 0 ≤ b < 128) (take 1 bs)) as Htake by (by apply Forall_take).
    rewrite (proj2 (unicode_case_ascii (take 1 bs) Htake)).
    by apply utf8_encode_ascii, Hupper. }
  assert (strings_ToUpper (string_of_runes (drop 1 bs))
          = string_of_bytes (ascii_upper <$> drop 1 bs)) as Hrest.
  { assert (Forall (λ b, 0 ≤ b < 128) (drop 1 bs)) as Hdrop by (by apply Forall_drop).
    unfold strings_ToUpper, strings_Map, runes_of_string.
    rewrite (utf8_encode_ascii (drop 1 bs)) by done.
    rewrite bytes_of_string_of_bytes
      by (eapply Forall_impl; [exact Hdrop|]; simpl; intros; lia).
    rewrite utf8_decode_ascii
      by (eapply Forall_impl; [exact Hdrop|]; unfold RuneSelf; simpl; intros; lia).
    change (map unicode_ToUpper (drop 1 bs)) with (unicode_ToUpper <$> drop 1 bs).
    rewrite (proj1 (unicode_case_ascii (drop 1 bs) Hdrop)).
    unfold rune.
    assert (filter (λ r, 0 ≤ r) (ascii_upper <$> drop 1 bs) = ascii_upper <$> drop 1 bs) as ->.
    { apply filter_all. eapply Forall_impl; [exact (Hupper _ Hdrop)|]. simpl. intros. lia. }
    apply utf8_encode_ascii, Hupper, Hdrop. }
  assert ((if decide (1 < length bs)%nat
           then string_of_bytes (ascii_upper <$> take 1 bs)
                +:+ string_of_bytes (ascii_upper <$> drop 1 bs)
           else string_of_bytes (ascii_upper <$> take 1 bs))
          = upper_string s) as Hjoin.
  { unfold upper_string. fold bs. case_decide as Hlen.
    - by rewrite <- string_of_bytes_app, <- fmap_app, take_drop.
    - by rewrite take_ge by lia. }
  unfold rune in *. rewrite Htitle, Hrest, Hjoin.
  apply strings_Replace1_absent. unfold upper_string. fold bs.
  specialize (Hupper bs Hbs).
  rewrite bytes_of_string_of_bytes
    by (eapply Forall_impl; [exact Hupper|]; simpl; intros; lia).
  intros (b & Hb & Hin)%list_elem_of_fmap.
  rewrite Forall_forall in Hbs. destruct (ascii_upper_range b (Hbs b Hin)) as [_ Hne]. done.
Qed.

Lemma ParseNote_ascii (s : string) :
  is_ascii s → s ≠ "" →
  ParseNote s = match noteMap !! upper_string s with
                | None => Err "unrecognized note"
                | Some value => Ok (mkNote s value)
                end.
Proof.
  intros Hascii Hs. unfold ParseNote. rewrite decide_False by done.
  by rewrite normalize_ascii.
Qed.

(** [ParseNote] on an ASCII token, in full: the spellings of notes give their
    note, everything else one of the two errors. *)
Lemma ParseNote_ascii_tokens (s : string) :
  is_ascii s →
  ParseNote s = if note_token s then Ok (mkNote s (token_class s))
                else if decide (s = "") then Err "cannot parse empty string"
                else Err "unrecognized note".
Proof.
  intros Hascii. pose proof (token_check_ascii s Hascii) as Hcheck.
  unfold token_check in Hcheck.
  destruct (decide (s = "")) as [->|Hs]; [by vm_compute|].
  rewrite ParseNote_ascii by done.
  destruct (noteMap !! upper_string s) as [v|].
  - apply andb_true_iff in Hcheck as [-> ->%Z.eqb_eq]. done.
  - apply negb_true_iff in Hcheck. by rewrite Hcheck.
Qed.

(** C9. [parsePitch] fails exactly when the normalized token is not a key
    of the 21-entry table, as it is not for the empty string, a double
    accidental, a digit or an unknown letter; on success the note keeps the
    token as it was given and takes the pitch class the table has for the
    normalized token: "C#" and "Db" both give the class 1, each under its
    own spelling.  What the normalization does is stated apart from the
    code: on an ASCII token it is [upper_string], upper case byte by byte,
    so that a token in lower case is read as in upper case; and the table is
    read apart from the code as well: the ASCII tokens that parse are the
    letters from A to G in either case, alone or with one of [#], [b] and
    [B], with the pitch class of the letter moved by the accidental. *)
Theorem ParseNote_table :
  size noteMap = 21%nat
  ∧ (∀ s, is_Err (ParseNote s) ↔ noteMap !! normalize s = None)
  ∧ (∀ s n, ParseNote s = Ok n →
            Original n = s ∧ noteMap !! normalize s = Some (Value n))
  ∧ is_Err (ParseNote "") ∧ is_Err (ParseNote "C##") ∧ is_Err (ParseNote "Cbb")
  ∧ is_Err (ParseNote "C4") ∧ is_Err (ParseNote "7") ∧ is_Err (ParseNote "H")
  ∧ ParseNote "C#" = Ok (mkNote "C#" 1) ∧ ParseNote "Db" = Ok (mkNote "Db" 1)
  ∧ (∀ s, is_ascii s → normalize s = upper_string s)
  ∧ (∀ s, is_ascii s → is_Err (ParseNote s) ↔ noteMap !! upper_string s = None)
  ∧ (∀ s n, is_ascii s → ParseNote s = Ok n →
            Original n = s ∧ noteMap !! upper_string s = Some (Value n))
  ∧ (∀ s, is_ascii s →
          ParseNote s = if note_token s then Ok (mkNote s (token_class s))
                        else if decide (s = "") then Err "cannot parse empty string"
                        else Err "unrecognized note")
  ∧ ParseNote "c#" = Ok (mkNote "c#" 1) ∧ ParseNote "db" = Ok (mkNote "db" 1)
  ∧ ParseNote "dB" = Ok (mkNote "dB" 1) ∧ ParseNote "DB" = Ok (mkNote "DB" 1).
Proof.
  split_and!.
  - vm_compute. reflexivity.
  - apply ParseNote_Err_iff.
  - intros s n Hn. by apply ParseNote_Ok in Hn as (_ & ? & ?).
  - vm_compute. exact I.
  - vm_compute. exact I.
  - vm_compute. exact I.
  - vm_compute. exact I.
  - vm_compute. exact I.
  - vm_compute. exact I.
  - vm_compute. reflexivity.
  - vm_compute. reflexivity.
  - apply normalize_ascii.
  - intros s Hascii. by rewrite ParseNote_Err_iff, normalize_ascii.
  - intros s n Hascii Hn. apply ParseNote_Ok in Hn as (_ & ? & Hvalue).
    by rewrite normalize_ascii in Hvalue.
  - apply ParseNote_ascii_tokens.
  - vm_compute. reflexivity.
  - vm_compute. reflexivity.
  - vm_compute. reflexivity.
  - vm_compute. reflexivity.
Qed.

Lemma findQuality_outcome (rootNote : Note) (quality : string) :
  quality_outcome rootNote quality
    match findQuality quality with
    | Some (_, chordDef) => Ok (rootNote, chordDef)
    | None => Err ("unknown chord quality: '" +:+ quality +:+ "'")
    end.
Proof.
  assert (Hsuffix : ∀ c, Exists (λ suffix, quality = suffix) (Chord.Suffixes c)
                         ↔ quality ∈ Chord.Suffixes c).
  { intros c. rewrite Exists_exists. split; [by intros (? & ? & <-)|by eauto]. }
  unfold findQuality. destruct (list_find _ _) as [[i chordDef]|] eqn:Hfind.
  - apply list_find_Some in Hfind as (Hi & Hsuf & Hfirst).
    left. exists i, chordDef. split_and!; [done|by apply Hsuffix| |done].
    intros j c Hj Hc Hin. by eapply Hfirst, Hsuffix.
  - apply list_find_None in Hfind. rewrite Forall_forall in Hfind.
    right. split; [|done]. intros c Hc Hin. by eapply Hfind, Hsuffix.
Qed.

(** C5. On a token of two bytes or more, [parseChordName] takes the first
    two bytes as the root when they parse and the first byte only when they
    do not; when neither parses it fails with the invalid-root error;
    otherwise the rest of the token is the quality, looked up as
    [quality_outcome] says. *)
Theorem ParseChordName_root_then_quality (name : string) :
  (2 ≤ String.length name)%nat →
  match ParseNote (slice_to name 2), ParseNote (slice_to name 1) with
  | Ok rootNote, _ =>
    quality_outcome rootNote (slice_from name 2) (ParseChordName name)
  | Err _, Ok rootNote =>
    quality_outcome rootNote (slice_from name 1) (ParseChordName name)
  | Err _, Err _ =>
    ParseChordName name = Err "invalid root note in chord name"
  end.
Proof.
  intros Hlen. unfold ParseChordName. rewrite decide_True by lia.
  destruct (ParseNote (slice_to name 2)) as [rootNote|?];
    [apply findQuality_outcome|].
  destruct (ParseNote (slice_to name 1)) as [rootNote|?];
    [apply findQuality_outcome|done].
Qed.

(** The scenarios of the specification and of [TestParseChordName]. *)
Lemma ParseChordName_scenarios :
  ParseChordName "Am7"
  = Ok (mkNote "A" 9, Chord.mk "Minor 7th" ["m7"; "min7"] [0; 3; 7; 10])
  ∧ ParseChordName "F#m7"
    = Ok (mkNote "F#" 6, Chord.mk "Minor 7th" ["m7"; "min7"] [0; 3; 7; 10])
  ∧ ParseChordName "F#" = Ok (mkNote "F#" 6, Chord.mk "Major Triad" [""; "M"] [0; 4; 7])
  ∧ ParseChordName "CM7"
    = Ok (mkNote "C" 0, Chord.mk "Major 7th" ["maj7"; "M7"] [0; 4; 7; 11])
  ∧ ParseChordName "Cm7"
    = Ok (mkNote "C" 0, Chord.mk "Minor 7th" ["m7"; "min7"] [0; 3; 7; 10])
  ∧ ParseChordName "H" = Err "invalid root note in chord name"
  ∧ ParseChordName "Cmaj9" = Err "unknown chord quality: 'maj9'".
Proof. split_and!; vm_compute; reflexivity. Qed.

Lemma ParseNote_in_range (s : string) (n : Note) :
  ParseNote s = Ok n → pitch_class (Value n).
Proof. intros (_ & _ & Hvalue)%ParseNote_Ok. by eapply noteMap_values. Qed.

(** C10, as the code has it.  The notes of the engine have a pitch class for
    value, whether parsed or generated; the intervals computed between such
    notes are pitch classes as well.  On these values no index into
    [valueToName] leaves the table: [SliceToString] returns for such notes,
    and so does [GenerateNotes] for such a root and offsets that are
    non-negative (and at most 2^63 - 12), as the formulas of the dictionary
    and the computed intervals are. *)
Theorem engine_values_in_range
    (root : Note) (notes : list Note) (offsets : list Z) :
  pitch_class (Value root) →
  Forall (λ n, pitch_class (Value n)) notes →
  Forall offset_ok offsets →
  (∀ s n, ParseNote s = Ok n → pitch_class (Value n))
  ∧ (∀ root' offsets' notes',
       GenerateNotes root' offsets' = Some notes' →
       Forall (λ n, pitch_class (Value n)) notes')
  ∧ Forall pitch_class (CalculateIntervals root notes)
  ∧ is_Some (SliceToString notes)
  ∧ is_Some (GenerateNotes root offsets)
  ∧ Forall offset_ok (CalculateIntervals root notes)
  ∧ Forall (λ chordDef, Forall offset_ok (Chord.Intervals chordDef)) chordDictionary.
Proof.
  intros Hroot Hnotes Hoffsets.
  pose proof (CalculateIntervals_in_range root notes Hroot Hnotes) as Hintervals.
  split_and!.
  - apply ParseNote_in_range.
  - apply GenerateNotes_in_range.
  - done.
  - by apply SliceToString_no_panic.
  - by apply GenerateNotes_no_panic.
  - eapply Forall_impl; [exact Hintervals|]. unfold pitch_class, offset_ok. lia.
  - unfold offset_ok. repeat (constructor; [repeat (constructor; [lia|]); constructor|]).
    constructor.
Qed.
End Parsing.

Lemma ParseChordName_root_then_quality_witness :
  quality_outcome (mkNote "F#" 6) "m7" (@ParseChordName ascii_tables "F#m7").
Proof.
  exact (@ParseChordName_root_then_quality ascii_tables "F#m7" ltac:(simpl; lia)).
Defined.

Lemma engine_values_in_range_witness :
  Forall pitch_class (CalculateIntervals (mkNote "E" 4) notes_CDEFGA)
  ∧ is_Some (SliceToString notes_CDEFGA)
  ∧ is_Some (GenerateNotes (mkNote "E" 4) [0; 3; 7; 10]).
Proof.
  destruct (@engine_values_in_range ascii_tables (mkNote "E" 4) notes_CDEFGA [0; 3; 7; 10])
    as (_ & _ & Hintervals & Hrender & Hgenerate & _).
  - unfold pitch_class. simpl. lia.
  - unfold pitch_class. repeat (constructor; [simpl; lia|]). constructor.
  - unfold offset_ok. repeat (constructor; [lia|]). constructor.
  - done.
Defined.

(** * Further properties of the engine *)

(** ** Deduplication *)

(** X1. The lists that [Unique] leaves unchanged are exactly those without
    two notes of the same pitch class. *)
Theorem Unique_fixed_point (notes : list Note) :
  Unique notes = notes ↔ NoDup (Value <$> notes).
Proof.
  split.
  - intros <-. apply Unique_NoDup.
  - induction notes as [|n notes IH] using rev_ind; [done|].
    rewrite fmap_app. intros (Hnodup & Hnew & _)%NoDup_app.
    rewrite Unique_snoc, decide_False, IH; [done..|].
    intros Hin. apply (Hnew _ Hin). simpl. left.
Qed.

Lemma Unique_cons_head (n : Note) (notes : list Note) :
  head (Unique (n :: notes)) = Some n.
Proof.
  induction notes as [|m notes IH] using rev_ind; [done|].
  rewrite app_comm_cons, Unique_snoc. case_decide; [done|].
  rewrite head_app. by rewrite IH.
Qed.

(** X2. [Unique] keeps the first note in front, so that the root taken from
    a deduplicated input is the first note given; its result is empty only
    for an empty input. *)
Theorem Unique_head (notes : list Note) :
  head (Unique notes) = head notes ∧ (Unique notes = [] ↔ notes = []).
Proof.
  destruct notes as [|n notes]; [done|].
  pose proof (Unique_cons_head n notes) as Hhead.
  split; [done|]. split; [|done]. intros Hnil. by rewrite Hnil in Hhead.
Qed.

(** X3. [Unique] returns as many notes as its input has distinct pitch
    classes, never more than it was given. *)
Theorem Unique_length (notes : list Note) :
  length (Unique notes) = size (list_to_set (Value <$> notes) : gset Z)
  ∧ (length (Unique notes) ≤ length notes)%nat.
Proof.
  split; [|apply sublist_length, Unique_sublist].
  rewrite <- (length_fmap Value), <- (size_list_to_set (C := gset Z)) by apply Unique_NoDup.
  f_equal. apply set_eq. intros v. rewrite !elem_of_list_to_set. apply Unique_values.
Qed.

(** ** Intervals *)

Lemma CalculateIntervals_unfold (root : Note) (notes : list Note) :
  CalculateIntervals root notes = sort_Ints (intervalFrom root <$> notes).
Proof.
  unfold CalculateIntervals. f_equal.
  apply (foldl_append_map (intervalFrom root) notes []).
Qed.

Lemma intervalFrom_mod (root n : Note) :
  pitch_class (Value root) → pitch_class (Value n) →
  intervalFrom root n = (Value n - Value root) mod 12.
Proof.
  unfold pitch_class, intervalFrom, int_sub, int_add. intros Hroot Hn.
  rewrite (int_wrap_small (Value n - Value root)) by lia.
  case_decide as Hneg.
  - rewrite int_wrap_small by lia.
    rewrite <- (Z.mod_add _ 1 12) by lia. rewrite Z.mod_small; lia.
  - rewrite Z.mod_small; lia.
Qed.

Lemma sort_Ints_sorted_id (xs : list Z) : StronglySorted Z.le xs → sort_Ints xs = xs.
Proof.
  intros Hsorted. symmetry.
  apply (sorted_perm_unique Z.ltb Zltb_irrefl Zltb_trans Zltb_total); [done|].
  eapply StronglySorted_weaken; [|exact Hsorted].
  intros a b Hle. unfold ordered_by. rewrite Z.ltb_lt. lia.
Qed.

(** X4. Between notes whose values are pitch classes, the intervals that
    [CalculateIntervals] returns are the differences to the root reduced
    modulo 12, one per note, in ascending order. *)
Theorem CalculateIntervals_mod (root : Note) (notes : list Note) :
  pitch_class (Value root) →
  Forall (λ n, pitch_class (Value n)) notes →
  CalculateIntervals root notes ≡ₚ (λ n, (Value n - Value root) mod 12) <$> notes
  ∧ StronglySorted Z.le (CalculateIntervals root notes).
Proof.
  intros Hroot Hnotes. rewrite CalculateIntervals_unfold.
  split; [|apply sort_Ints_sorted].
  rewrite sort_Ints_perm.
  assert (intervalFrom root <$> notes = (λ n, (Value n - Value root) mod 12) <$> notes) as ->;
    [|done].
  apply list_fmap_ext. intros i n Hn.
  apply intervalFrom_mod; [done|].
  rewrite Forall_forall in Hnotes. eapply Hnotes, list_elem_of_lookup_2, Hn.
Qed.

Lemma CalculateIntervals_mod_witness :
  CalculateIntervals (mkNote "E" 4) notes_CDEFGA
    ≡ₚ (λ n, (Value n - 4) mod 12) <$> notes_CDEFGA
  ∧ StronglySorted Z.le (CalculateIntervals (mkNote "E" 4) notes_CDEFGA).
Proof.
  apply (CalculateIntervals_mod (mkNote "E" 4) notes_CDEFGA).
  - unfold pitch_class. simpl. lia.
  - unfold pitch_class. repeat (constructor; [simpl; lia|]). constructor.
Defined.

(** X5. When the root is one of the notes, the first interval is 0. *)
Theorem CalculateIntervals_root_first (root : Note) (notes : list Note) :
  pitch_class (Value root) →
  Forall (λ n, pitch_class (Value n)) notes →
  root ∈ notes →
  head (CalculateIntervals root notes) = Some 0.
Proof.
  intros Hroot Hnotes Hin.
  pose proof (CalculateIntervals_in_range root notes Hroot Hnotes) as Hrange.
  assert (0 ∈ CalculateIntervals root notes) as Hzero.
  { rewrite CalculateIntervals_unfold, sort_Ints_perm.
    apply list_elem_of_fmap. exists root. split; [|done].
    rewrite intervalFrom_mod by done. by rewrite Z.sub_diag. }
  pose proof (sort_Ints_sorted (intervalFrom root <$> notes)) as Hsorted.
  rewrite <- CalculateIntervals_unfold in Hsorted.
  destruct (CalculateIntervals root notes) as [|x l]; [by apply elem_of_nil in Hzero|].
  simpl. f_equal.
  apply Forall_cons in Hrange as [[Hx _] _].
  apply StronglySorted_inv in Hsorted as [_ Hle]. rewrite Forall_forall in Hle.
  apply elem_of_cons in Hzero as [->|Hzero]; [done|].
  specialize (Hle 0 Hzero). lia.
Qed.

Lemma CalculateIntervals_root_first_witness :
  head (CalculateIntervals (mkNote "E" 4) notes_CDEFGA) = Some 0.
Proof.
  apply CalculateIntervals_root_first.
  - unfold pitch_class. simpl. lia.
  - unfold pitch_class. repeat (constructor; [simpl; lia|]). constructor.
  - unfold notes_CDEFGA. set_solver.
Defined.

Lemma intervalFrom_inj (root n m : Note) :
  pitch_class (Value root) → pitch_class (Value n) → pitch_class (Value m) →
  intervalFrom root n = intervalFrom root m → Value n = Value m.
Proof.
  intros Hroot Hn Hm. rewrite !intervalFrom_mod by done.
  unfold pitch_class in *. intros Heq.
  destruct (decide (Value n - Value root < 0)), (decide (Value m - Value root < 0)).
  - rewrite <- (Z.mod_add (Value n - Value root) 1 12),
      <- (Z.mod_add (Value m - Value root) 1 12), !Z.mod_small in Heq; lia.
  - rewrite <- (Z.mod_add (Value n - Value root) 1 12), !Z.mod_small in Heq; lia.
  - rewrite <- (Z.mod_add (Value m - Value root) 1 12), !Z.mod_small in Heq; lia.
  - rewrite !Z.mod_small in Heq; lia.
Qed.

(** X6. Notes of pairwise distinct pitch classes, as [Unique] leaves them,
    give pairwise distinct intervals: the result is strictly ascending, and
    its length, which [Check] compares with the length of a formula, is the
    number of distinct intervals. *)
Theorem CalculateIntervals_strict (root : Note) (notes : list Note) :
  pitch_class (Value root) →
  Forall (λ n, pitch_class (Value n)) notes →
  NoDup (Value <$> notes) →
  StronglySorted Z.lt (CalculateIntervals root notes)
  ∧ length (CalculateIntervals root notes)
    = size (list_to_set (CalculateIntervals root notes) : gset Z).
Proof.
  intros Hroot Hnotes Hnodup.
  assert (NoDup (intervalFrom root <$> notes)) as Hdistinct.
  { revert Hnodup. induction Hnotes as [|n notes Hn Hnotes IH]; [constructor|].
    rewrite !fmap_cons, !NoDup_cons. intros [Hnew Hnodup]. split; [|by apply IH].
    intros (m & Heq & Hm)%list_elem_of_fmap. apply Hnew.
    apply list_elem_of_fmap. exists m. split; [|done].
    rewrite Forall_forall in Hnotes.
    apply (intervalFrom_inj root n m Hroot Hn (Hnotes m Hm) Heq). }
  rewrite CalculateIntervals_unfold. split.
  - eapply StronglySorted_weaken;
      [|apply (sort_Slice_strict Z.ltb Zltb_trans Zltb_total _ Hdistinct)].
    intros a b. apply Z.ltb_lt.
  - symmetry. apply size_list_to_set. by rewrite sort_Ints_perm.
Qed.

Lemma CalculateIntervals_strict_witness :
  StronglySorted Z.lt (CalculateIntervals (mkNote "E" 4) notes_CDEFGA)
  ∧ length (CalculateIntervals (mkNote "E" 4) notes_CDEFGA)
    = size (list_to_set (CalculateIntervals (mkNote "E" 4) notes_CDEFGA) : gset Z).
Proof.
  apply CalculateIntervals_strict.
  - unfold pitch_class. simpl. lia.
  - unfold pitch_class. repeat (constructor; [simpl; lia|]). constructor.
  - apply (bool_decide_unpack _). vm_compute. exact I.
Defined.

Lemma Forall2_fmap_eq {A B} (f : B → A) (l : list A) (k : list B) :
  Forall2 (λ x y, f y = x) l k → f <$> k = l.
Proof. induction 1 as [|x y l k Hxy _ IH]; [done|]. rewrite fmap_cons. by f_equal. Qed.

Lemma generated_interval (root n : Note) (offset : Z) :
  pitch_class (Value root) → pitch_class offset →
  Value n = int_rem (int_add (Value root) offset) 12 →
  intervalFrom root n = offset.
Proof.
  unfold pitch_class, int_rem, int_add. intros Hroot Hoffset Hvalue.
  rewrite int_wrap_small in Hvalue by lia.
  rewrite Z.rem_mod_nonneg in Hvalue by lia.
  assert (pitch_class (Value n)) as Hn.
  { unfold pitch_class. pose proof (Z.mod_pos_bound (Value root + offset) 12). lia. }
  rewrite intervalFrom_mod by done.
  rewrite Hvalue, Zminus_mod_idemp_l.
  replace (Value root + offset - Value root) with offset by lia.
  rewrite Z.mod_small; lia.
Qed.

Lemma CalculateIntervals_generated (root : Note) (offsets : list Z) (notes : list Note) :
  pitch_class (Value root) →
  Forall pitch_class offsets →
  GenerateNotes root offsets = Some notes →
  CalculateIntervals root notes = sort_Ints offsets.
Proof.
  intros Hroot Hoffsets Hgen%GenerateNotes_Forall2.
  assert (intervalFrom root <$> notes = offsets) as Hback.
  { apply Forall2_fmap_eq.
    revert Hoffsets. induction Hgen as [|o n os ns [Hvalue _] _ IH]; [constructor|].
    intros [Ho Hos]%Forall_cons. constructor; [|by apply IH].
    by apply generated_interval. }
  by rewrite CalculateIntervals_unfold, Hback.
Qed.

(** X7. Generating the notes of a formula and computing their intervals from
    the same root gives the offsets back, in ascending order; a formula that
    is ascending already, as those of the dictionary are, is returned as it
    is. *)
Theorem CalculateIntervals_GenerateNotes
    (root : Note) (offsets : list Z) (notes : list Note) :
  pitch_class (Value root) →
  Forall pitch_class offsets →
  GenerateNotes root offsets = Some notes →
  CalculateIntervals root notes = sort_Ints offsets
  ∧ (StronglySorted Z.le offsets → CalculateIntervals root notes = offsets).
Proof.
  intros Hroot Hoffsets Hgen.
  rewrite (CalculateIntervals_generated root offsets notes) by done.
  split; [done|]. apply sort_Ints_sorted_id.
Qed.

Lemma CalculateIntervals_GenerateNotes_witness :
  CalculateIntervals (mkNote "A" 9)
    [mkNote "A" 9; mkNote "C" 0; mkNote "E" 4; mkNote "G" 7] = sort_Ints [0; 3; 7; 10]
  ∧ (StronglySorted Z.le [0; 3; 7; 10] →
     CalculateIntervals (mkNote "A" 9)
       [mkNote "A" 9; mkNote "C" 0; mkNote "E" 4; mkNote "G" 7] = [0; 3; 7; 10]).
Proof.
  apply (CalculateIntervals_GenerateNotes (mkNote "A" 9) [0; 3; 7; 10]).
  - unfold pitch_class. simpl. lia.
  - unfold pitch_class. repeat (constructor; [lia|]). constructor.
  - vm_compute. reflexivity.
Defined.

(** X8. Computing the intervals of notes from a root and generating notes
    from these intervals on the same root gives the pitch classes of the
    notes back, each as often as it occurred. *)
Theorem GenerateNotes_CalculateIntervals (root : Note) (notes : list Note) :
  pitch_class (Value root) →
  Forall (λ n, pitch_class (Value n)) notes →
  ∃ generated,
    GenerateNotes root (CalculateIntervals root notes) = Some generated
    ∧ Value <$> generated ≡ₚ Value <$> notes.
Proof.
  intros Hroot Hnotes.
  pose proof (CalculateIntervals_in_range root notes Hroot Hnotes) as Hrange.
  destruct (GenerateNotes_no_panic root (CalculateIntervals root notes) Hroot)
    as [generated Hgen].
  { eapply Forall_impl; [exact Hrange|]. unfold pitch_class, offset_ok. lia. }
  exists generated. split; [done|].
  apply GenerateNotes_Forall2 in Hgen.
  assert (Value <$> generated
          = (λ o, (Value root + o) mod 12) <$> CalculateIntervals root notes) as ->.
  { clear Hnotes. induction Hgen as [|o n os ns [Hvalue _] _ IH]; [done|].
    apply Forall_cons in Hrange as [Ho Hos]. rewrite !fmap_cons, IH by done.
    f_equal. rewrite Hvalue. unfold int_rem, int_add, pitch_class in *.
    rewrite int_wrap_small by lia. apply Z.rem_mod_nonneg; lia. }
  rewrite CalculateIntervals_unfold, sort_Ints_perm, <- list_fmap_compose.
  assert ((λ o, (Value root + o) mod 12) ∘ intervalFrom root <$> notes = Value <$> notes)
    as ->; [|done].
  apply list_fmap_ext. intros i n Hn. simpl.
  rewrite Forall_forall in Hnotes.
  assert (pitch_class (Value n)) as Hvn by (eapply Hnotes, list_elem_of_lookup_2, Hn).
  rewrite intervalFrom_mod by done. unfold pitch_class in *.
  rewrite Zplus_mod_idemp_r.
  replace (Value root + (Value n - Value root)) with (Value n) by lia.
  apply Z.mod_small. lia.
Qed.

Lemma GenerateNotes_CalculateIntervals_witness :
  ∃ generated,
    GenerateNotes (mkNote "E" 4) (CalculateIntervals (mkNote "E" 4) notes_CDEFGA)
      = Some generated
    ∧ Value <$> generated ≡ₚ Value <$> notes_CDEFGA.
Proof.
  apply GenerateNotes_CalculateIntervals.
  - unfold pitch_class. simpl. lia.
  - unfold pitch_class. repeat (constructor; [simpl; lia|]). constructor.
Defined.

(** ** Matching *)

Lemma FindMatches_filter (intervals : list Z) :
  FindMatches intervals
  = toMatch <$> filter (λ chordDef,
                          fst (Chord.Check chordDef intervals (list_to_set intervals)))
                       chordDictionary.
Proof.
  unfold FindMatches. rewrite foldl_append_if, foldl_set_insert.
  by rewrite (right_id_L ∅ (∪)).
Qed.

(** X9. [FindMatches] returns its matches in the order of the dictionary,
    each definition at most once. *)
Theorem FindMatches_dictionary_order (intervals : list Z) :
  FindMatches intervals `sublist_of` toMatch <$> chordDictionary
  ∧ NoDup (FindMatches intervals).
Proof.
  rewrite FindMatches_filter.
  assert (toMatch <$> filter (λ chordDef,
                                fst (Chord.Check chordDef intervals (list_to_set intervals)))
                             chordDictionary
          `sublist_of` toMatch <$> chordDictionary) as Hsub
    by apply fmap_sublist, sublist_filter.
  split; [done|]. eapply sublist_NoDup; [|exact Hsub].
  apply (NoDup_fmap_1 Match.Name). apply (bool_decide_unpack _). by vm_compute.
Qed.

(** X10. The matches depend on the intervals only through their number and
    the set of their values: neither their order (the sort that ends
    [CalculateIntervals] is not needed for matching) nor which of them is
    repeated matters. *)
Theorem FindMatches_invariant (I I' : list Z) :
  length I = length I' →
  (∀ v, v ∈ I ↔ v ∈ I') →
  FindMatches I = FindMatches I'.
Proof.
  intros Hlen Hset. rewrite !FindMatches_filter. f_equal.
  apply list_filter_iff. intros c. rewrite !Is_true_true, !Check_true, Hlen.
  split; intros [? Hall]; (split; [done|]); intros o Ho; specialize (Hall o Ho);
    rewrite elem_of_list_to_set in *; by apply Hset.
Qed.

Lemma FindMatches_invariant_witness :
  FindMatches [7; 0; 4; 4] = FindMatches [0; 0; 4; 7].
Proof.
  apply FindMatches_invariant.
  - reflexivity.
  - intros v. set_solver.
Defined.

(** X11. Every formula of the dictionary has the root and at least three
    offsets: intervals without 0, or fewer than three of them, match
    nothing. *)
Theorem FindMatches_nothing (I : list Z) :
  0 ∉ I ∨ (length I < 3)%nat → FindMatches I = [].
Proof.
  intros Hno.
  assert (Forall (λ c, 0 ∈ Chord.Intervals c ∧ (3 ≤ length (Chord.Intervals c))%nat)
                 chordDictionary) as Hdict
    by (apply (bool_decide_unpack _); by vm_compute).
  rewrite Forall_forall in Hdict.
  destruct (FindMatches I) as [|m l] eqn:Hm; [done|].
  assert (m ∈ FindMatches I) as (c & Hc & _ & Hlen & Hall)%FindMatches_elem
    by (rewrite Hm; left).
  destruct (Hdict c Hc) as [Hzero Hthree].
  destruct Hno as [Hno|Hno]; [by destruct Hno; apply Hall|lia].
Qed.

Lemma FindMatches_nothing_witness : FindMatches [4; 7; 11] = [].
Proof.
  apply FindMatches_nothing. left. set_solver.
Defined.

Lemma chordDictionary_formulas :
  Forall (λ c, Forall (λ o, 0 ≤ o ≤ 11) (Chord.Intervals c)
               ∧ StronglySorted Z.le (Chord.Intervals c)) chordDictionary.
Proof. apply (bool_decide_unpack _). by vm_compute. Qed.

Lemma generated_chord_intervals (root : Note) (chordDef : Chord) (notes : list Note) :
  pitch_class (Value root) →
  chordDef ∈ chordDictionary →
  GenerateNotes root (Chord.Intervals chordDef) = Some notes →
  CalculateIntervals root notes = Chord.Intervals chordDef.
Proof.
  intros Hroot Hc Hgen.
  pose proof chordDictionary_formulas as Hdict. rewrite Forall_forall in Hdict.
  destruct (Hdict chordDef Hc) as [Hrange Hsorted].
  rewrite (CalculateIntervals_generated root (Chord.Intervals chordDef)) by done.
  by apply sort_Ints_sorted_id.
Qed.

(** X12. The notes generated for a definition of the dictionary on a root
    are identified as that definition: their intervals from the root are the
    formula itself, [FindMatches] returns the definition among its matches,
    and there are as many notes as offsets, so that the match is not
    reported as a subset. *)
Theorem FindMatches_generated_chord (root : Note) (chordDef : Chord) (notes : list Note) :
  pitch_class (Value root) →
  chordDef ∈ chordDictionary →
  GenerateNotes root (Chord.Intervals chordDef) = Some notes →
  CalculateIntervals root notes = Chord.Intervals chordDef
  ∧ toMatch chordDef ∈ FindMatches (CalculateIntervals root notes)
  ∧ length notes = length (Chord.Intervals chordDef).
Proof.
  intros Hroot Hc Hgen.
  rewrite (generated_chord_intervals root chordDef notes) by done.
  split_and!; [done| |].
  - apply FindMatches_elem. exists chordDef. split_and!; done.
  - apply mapM_Some, Forall2_length in Hgen. done.
Qed.

Lemma FindMatches_generated_chord_witness :
  let notes := [mkNote "A" 9; mkNote "C" 0; mkNote "E" 4; mkNote "G" 7] in
  CalculateIntervals (mkNote "A" 9) notes = [0; 3; 7; 10]
  ∧ toMatch (Chord.mk "Minor 7th" ["m7"; "min7"] [0; 3; 7; 10])
      ∈ FindMatches (CalculateIntervals (mkNote "A" 9) notes)
  ∧ length notes = length [0; 3; 7; 10].
Proof.
  apply (FindMatches_generated_chord (mkNote "A" 9)
           (Chord.mk "Minor 7th" ["m7"; "min7"] [0; 3; 7; 10])).
  - unfold pitch_class. simpl. lia.
  - unfold chordDictionary. set_solver.
  - vm_compute. reflexivity.
Defined.

(** ** Ranking of keys *)

Lemma Estimate_sorted_entries (notes : list Note) :
  Estimate notes = sort_Slice KeyMatch.less (spec_entries notes).
Proof. by rewrite Estimate_eq, keyCount_spec_entries. Qed.

Lemma spec_entries_ext (a b : list Note) :
  (∀ v, v ∈ Value <$> a ↔ v ∈ Value <$> b) → spec_entries a = spec_entries b.
Proof.
  intros Hset. unfold spec_entries.
  assert ((list_to_set (Value <$> a) : gset Z) = list_to_set (Value <$> b)) as ->; [|done].
  apply set_eq. intros v. rewrite !elem_of_list_to_set. apply Hset.
Qed.

Lemma elem_of_spec_entries (notes : list Note) (km : KeyMatch) :
  km ∈ spec_entries notes ↔
  ∃ keySig, keySig ∈ keySignatures
    ∧ KeyMatch.Name km = Key.Name keySig
    ∧ KeyMatch.MatchCount km
      = Z.of_nat (size (list_to_set (Value <$> notes) ∩ Key.Notes keySig))
    ∧ 0 < KeyMatch.MatchCount km.
Proof.
  unfold spec_entries. rewrite list_elem_of_filter, list_elem_of_fmap. split.
  - intros (Hpos & k & -> & Hk). by exists k.
  - intros (k & Hk & Hname & Hcount & Hpos). split; [done|]. exists k. split; [|done].
    destruct km as [name count]. simpl in *. by subst.
Qed.

Lemma elem_of_Estimate (notes : list Note) (km : KeyMatch) :
  km ∈ Estimate notes ↔ km ∈ spec_entries notes.
Proof. by rewrite Estimate_sorted_entries, sort_Slice_perm. Qed.

(** X13. The ranking depends on the notes only through the set of their
    pitch classes: order, repetition and spelling of the notes do not matter.
    In particular it is the same for a list and for its deduplication. *)
Theorem Estimate_pitch_class_set (a b : list Note) :
  (∀ v, v ∈ Value <$> a ↔ v ∈ Value <$> b) →
  Estimate a = Estimate b ∧ Estimate (Unique a) = Estimate a.
Proof.
  intros Hset. rewrite !Estimate_sorted_entries.
  rewrite (spec_entries_ext a b Hset).
  rewrite (spec_entries_ext (Unique a) b); [done|].
  intros v. by rewrite Unique_values.
Qed.

Lemma Estimate_pitch_class_set_witness :
  Estimate [mkNote "C" 0; mkNote "E" 4; mkNote "B#" 0]
  = Estimate [mkNote "Fb" 4; mkNote "c" 0]
  ∧ Estimate (Unique [mkNote "C" 0; mkNote "E" 4; mkNote "B#" 0])
    = Estimate [mkNote "C" 0; mkNote "E" 4; mkNote "B#" 0].
Proof.
  apply Estimate_pitch_class_set. intros v. simpl. set_solver.
Defined.

(** X14. The ranking has at most one entry per key, 24 at most, and no two
    entries of the same name; the count of an entry is at least 1 and at
    most 7, and never more than the number of notes given. *)
Theorem Estimate_bounds (notes : list Note) :
  (length (Estimate notes) ≤ 24)%nat
  ∧ NoDup (KeyMatch.Name <$> Estimate notes)
  ∧ Forall (λ km, 1 ≤ KeyMatch.MatchCount km ≤ 7
                  ∧ KeyMatch.MatchCount km ≤ Z.of_nat (length notes)) (Estimate notes).
Proof.
  destruct keySignatures_shape as [Hlen Hsize]. rewrite Forall_forall in Hsize.
  rewrite Estimate_sorted_entries. split_and!.
  - rewrite sort_Slice_perm. unfold spec_entries.
    etrans; [apply length_filter|]. by rewrite length_fmap, Hlen.
  - rewrite sort_Slice_perm. unfold spec_entries.
    eapply sublist_NoDup; [|apply fmap_sublist, sublist_filter].
    rewrite <- list_fmap_compose. apply keySignatures_names_NoDup.
  - rewrite sort_Slice_perm. apply Forall_forall.
    intros km (k & Hk & _ & -> & Hpos)%elem_of_spec_entries.
    assert (size (list_to_set (Value <$> notes) ∩ Key.Notes k) ≤ size (Key.Notes k))%nat
      by (apply subseteq_size; set_solver).
    assert (size (list_to_set (Value <$> notes) ∩ Key.Notes k)
            ≤ size (list_to_set (Value <$> notes) : gset Z))%nat
      by (apply subseteq_size; set_solver).
    pose proof (size_list_to_set_le (Value <$> notes)) as Hle.
    rewrite length_fmap in Hle. rewrite (Hsize k Hk) in *. lia.
Qed.

Lemma keySignatures_cover :
  Forall (λ v, Exists (λ keySig, v ∈ Key.Notes keySig) keySignatures)
         [0; 1; 2; 3; 4; 5; 6; 7; 8; 9; 10; 11]
  ∧ Forall (λ keySig, Key.Notes keySig ⊆ list_to_set [0; 1; 2; 3; 4; 5; 6; 7; 8; 9; 10; 11])
           keySignatures.
Proof. split; apply (bool_decide_unpack _); by vm_compute. Qed.

Lemma pitch_class_cases (v : Z) :
  pitch_class v ↔ v ∈ [0; 1; 2; 3; 4; 5; 6; 7; 8; 9; 10; 11].
Proof.
  unfold pitch_class. rewrite !elem_of_cons, elem_of_nil. lia.
Qed.

(** X15. The ranking is empty, which makes the program report that it could
    not determine likely keys, exactly when no note has a pitch class for
    value; this includes the empty input. *)
Theorem Estimate_empty (notes : list Note) :
  Estimate notes = [] ↔ Forall (λ n, ¬ pitch_class (Value n)) notes.
Proof.
  destruct keySignatures_cover as [Hcover Hwithin].
  rewrite Forall_forall in Hcover. rewrite Forall_forall in Hwithin.
  rewrite Forall_forall. split.
  - intros Hnil n Hn Hclass.
    apply pitch_class_cases, Hcover, Exists_exists in Hclass as (k & Hk & Hin).
    assert (KeyMatch.mk (Key.Name k)
              (Z.of_nat (size (list_to_set (Value <$> notes) ∩ Key.Notes k)))
            ∈ Estimate notes) as Hentry; [|by rewrite Hnil in Hentry; apply elem_of_nil in Hentry].
    apply elem_of_Estimate, elem_of_spec_entries. exists k. split_and!; [done..|]. simpl.
    assert (size (list_to_set (Value <$> notes) ∩ Key.Notes k) ≠ 0%nat); [|lia].
    apply (size_non_empty_iff (C := gset Z)).
    assert (Value n ∈ (list_to_set (Value <$> notes) : gset Z) ∩ Key.Notes k); [|set_solver].
    apply elem_of_intersection. split; [|done].
    apply elem_of_list_to_set, list_elem_of_fmap. by exists n.
  - intros Hnone. destruct (Estimate notes) as [|km l] eqn:Hest; [done|].
    assert (km ∈ Estimate notes) as (k & Hk & _ & Hcount & Hpos)%elem_of_Estimate%elem_of_spec_entries
      by (rewrite Hest; left).
    assert (size (list_to_set (Value <$> notes) ∩ Key.Notes k) ≠ 0%nat) as Hne by lia.
    apply (size_non_empty_iff (C := gset Z)) in Hne.
    apply set_choose in Hne as [v [Hv Hvk]%elem_of_intersection].
    apply elem_of_list_to_set, list_elem_of_fmap in Hv as (n & -> & Hn).
    destruct (Hnone n Hn). apply pitch_class_cases.
    specialize (Hwithin k Hk (Value n) Hvk). by apply elem_of_list_to_set in Hwithin.
Qed.

Lemma NoDup_fmap_eq {A B} (f : A → B) (l : list A) (x y : A) :
  NoDup (f <$> l) → x ∈ l → y ∈ l → f x = f y → x = y.
Proof.
  induction l as [|z l IH]; [by intros _ ?%elem_of_nil|].
  rewrite fmap_cons, NoDup_cons. intros [Hnew Hnodup].
  intros [->|Hx]%elem_of_cons [->|Hy]%elem_of_cons Heq; [done| | |by apply IH].
  - destruct Hnew. rewrite Heq. apply list_elem_of_fmap. by exists y.
  - destruct Hnew. rewrite <- Heq. apply list_elem_of_fmap. by exists x.
Qed.

(** The major key on the root [i] and the minor key nine semitones above
    have the same pitch classes. *)
Lemma keySignatures_relative :
  Forall (λ i,
            Exists (λ major,
                      Key.Name major = flatNames !!! Z.to_nat i +:+ " Major"
                      ∧ Exists (λ minor,
                                  Key.Name minor
                                  = noteNames !!! Z.to_nat ((i + 9) mod 12) +:+ " Minor"
                                  ∧ Key.Notes major = Key.Notes minor) keySignatures)
                   keySignatures)
         [0; 1; 2; 3; 4; 5; 6; 7; 8; 9; 10; 11].
Proof. apply (bool_decide_unpack _). by vm_compute. Qed.

(** X16. A major key and its relative minor (nine semitones above: A minor
    for C major) are never told apart: whatever the notes, both are in the
    ranking, with the same count, or neither is. *)
Theorem Estimate_relative_keys (notes : list Note) (i count : Z) :
  0 ≤ i < 12 →
  KeyMatch.mk (flatNames !!! Z.to_nat i +:+ " Major") count ∈ Estimate notes
  ↔ KeyMatch.mk (noteNames !!! Z.to_nat ((i + 9) mod 12) +:+ " Minor") count
      ∈ Estimate notes.
Proof.
  intros Hi.
  pose proof keySignatures_relative as Hrel. rewrite Forall_forall in Hrel.
  assert (i ∈ [0; 1; 2; 3; 4; 5; 6; 7; 8; 9; 10; 11]) as Hin
    by (apply pitch_class_cases; unfold pitch_class; lia).
  apply Hrel, Exists_exists in Hin as (major & Hmajor & HnameM & Hminor).
  apply Exists_exists in Hminor as (minor & Hminor & Hnamem & Hnotes).
  rewrite <- HnameM, <- Hnamem, !elem_of_Estimate, !elem_of_spec_entries. simpl.
  split; intros (k & Hk & Hname & Hcount & Hpos).
  - apply (NoDup_fmap_eq Key.Name keySignatures major k keySignatures_names_NoDup) in Hname;
      [subst k|done..].
    exists minor. by rewrite <- Hnotes.
  - apply (NoDup_fmap_eq Key.Name keySignatures minor k keySignatures_names_NoDup) in Hname;
      [subst k|done..].
    exists major. by rewrite Hnotes.
Qed.

Lemma Estimate_relative_keys_witness :
  KeyMatch.mk "C Major" 6 ∈ Estimate notes_CDEFGA
  ↔ KeyMatch.mk "A Minor" 6 ∈ Estimate notes_CDEFGA.
Proof.
  apply (Estimate_relative_keys notes_CDEFGA 0 6). lia.
Defined.

(** ** Chord names *)

Lemma substring_all (s : string) : substring 0 (String.length s) s = s.
Proof. induction s as [|c s IH]; [done|]. simpl. by rewrite IH. Qed.

Lemma slice_split (name : string) (n : nat) :
  (n ≤ String.length name)%nat → slice_to name n +:+ slice_from name n = name.
Proof.
  unfold slice_to, slice_from. revert n.
  induction name as [|c name IH]; intros [|n] Hn; simpl in *; try lia; try done.
  - by rewrite substring_all.
  - change (String c (substring 0 n name +:+ substring n (String.length name - n) name)
            = String c name).
    by rewrite IH by lia.
Qed.

Lemma slice_to_length (name : string) (n : nat) : (String.length (slice_to name n) ≤ n)%nat.
Proof.
  unfold slice_to. revert n.
  induction name as [|c name IH]; intros [|n]; simpl; try lia.
  specialize (IH n). lia.
Qed.

Lemma append_empty (s : string) : s +:+ "" = s.
Proof.
  induction s as [|c s IH]; [done|].
  change (String c (s +:+ "") = String c s). by rewrite IH.
Qed.

Lemma NoDup_bind_lookup {A B} (f : A → list B) (l : list A) (i j : nat) (x y : A) (b : B) :
  NoDup (l ≫= f) → l !! i = Some x → l !! j = Some y → b ∈ f x → b ∈ f y → i = j.
Proof.
  revert i j. induction l as [|z l IH]; intros i j; [done|].
  rewrite bind_cons. intros (_ & Hdisjoint & Hrest)%NoDup_app Hi Hj Hx Hy.
  assert (∀ k w, l !! k = Some w → b ∈ f w → b ∈ l ≫= f) as Hlater.
  { intros k w Hk Hw. apply list_elem_of_bind. exists w. split; [done|].
    by eapply list_elem_of_lookup_2. }
  destruct i as [|i], j as [|j]; simpl in *; simplify_eq; [done| | |].
  - destruct (Hdisjoint b Hx). by eapply Hlater.
  - destruct (Hdisjoint b Hy). by eapply Hlater.
  - f_equal. by eapply IH.
Qed.

Lemma chordDictionary_suffixes_NoDup : NoDup (chordDictionary ≫= Chord.Suffixes).
Proof. apply (bool_decide_unpack _). by vm_compute. Qed.

Lemma findQuality_outcome_inv (quality : string) (i : nat) (chordDef : Chord) :
  findQuality quality = Some (i, chordDef) →
  chordDictionary !! i = Some chordDef ∧ quality ∈ Chord.Suffixes chordDef.
Proof.
  unfold findQuality. intros (Hi & (suffix & Hin & ->)%Exists_exists & _)%list_find_Some.
  done.
Qed.

(** X17. No suffix is listed by two definitions: the scan of the dictionary
    finds a definition exactly when that definition lists the quality, and
    the order of the dictionary does not influence the parsing of chord
    names. *)
Theorem findQuality_unique (quality : string) (i : nat) (chordDef : Chord) :
  findQuality quality = Some (i, chordDef)
  ↔ chordDictionary !! i = Some chordDef ∧ quality ∈ Chord.Suffixes chordDef.
Proof.
  assert (Hsuffix : ∀ c, Exists (λ suffix, quality = suffix) (Chord.Suffixes c)
                         ↔ quality ∈ Chord.Suffixes c).
  { intros c. rewrite Exists_exists. split; [by intros (? & ? & <-)|by eauto]. }
  unfold findQuality. rewrite list_find_Some, Hsuffix. split.
  - by intros (? & ? & _).
  - intros [Hi Hin]. split_and!; [done..|].
    intros j c Hj Hlt Hc%Hsuffix.
    pose proof (NoDup_bind_lookup Chord.Suffixes chordDictionary i j chordDef c quality
                  chordDictionary_suffixes_NoDup Hi Hj Hin Hc). lia.
Qed.

Lemma elem_of_note_tokens (t : string) : note_token t = true → t ∈ note_tokens.
Proof.
  intros Htoken. apply list_elem_of_filter. split; [by apply Is_true_true|].
  destruct (note_token_ascii t Htoken) as [Hascii%is_ascii_bytes _].
  rewrite <- (string_of_bytes_of_string t).
  apply elem_of_short_ascii_strings; [done|].
  unfold note_token in Htoken.
  destruct (bytes_of_string t) as [|l [|a [|? ?] ] ]; simpl; try done; lia.
Qed.

Section ChordNames.
Context `{CaseTables}.

Lemma ParseChordName_Ok_inv (name : string) (root : Note) (chordDef : Chord) :
  ParseChordName name = Ok (root, chordDef) →
  ∃ token quality i,
    name = token +:+ quality
    ∧ (String.length token ≤ 2)%nat
    ∧ ParseNote token = Ok root
    ∧ findQuality quality = Some (i, chordDef).
Proof.
  unfold ParseChordName. case_decide as Hlen.
  - destruct (ParseNote (slice_to name 2)) as [r2|] eqn:Htwo.
    + destruct (findQuality (slice_from name 2)) as [[i c]|] eqn:Hq; [|done].
      intros [= <- <-]. exists (slice_to name 2), (slice_from name 2), i.
      split_and!; [by rewrite slice_split by lia|apply slice_to_length|done..].
    + destruct (ParseNote (slice_to name 1)) as [r1|] eqn:Hone; [|done].
      destruct (findQuality (slice_from name 1)) as [[i c]|] eqn:Hq; [|done].
      intros [= <- <-]. exists (slice_to name 1), (slice_from name 1), i.
      split_and!; [by rewrite slice_split by lia| |done..].
      pose proof (slice_to_length name 1). lia.
  - destruct (ParseNote name) as [r|] eqn:Hname; [|done].
    destruct (findQuality "") as [[i c]|] eqn:Hq; [|done].
    intros [= <- <-]. exists name, "", i.
    split_and!; [by rewrite append_empty|lia|done..].
Qed.

(** X18. A chord name that parses is its root followed by its quality: the
    spelling kept in the root is the first one or two bytes of the name and
    parses to the root on its own, and the rest of the name is a suffix that
    the definition returned, one of the dictionary, lists. *)
Theorem ParseChordName_decomposition (name : string) (root : Note) (chordDef : Chord) :
  ParseChordName name = Ok (root, chordDef) →
  ∃ quality,
    name = Original root +:+ quality
    ∧ (1 ≤ String.length (Original root) ≤ 2)%nat
    ∧ ParseNote (Original root) = Ok root
    ∧ chordDef ∈ chordDictionary
    ∧ quality ∈ Chord.Suffixes chordDef.
Proof.
  intros (token & quality & i & -> & Hlen & Hroot & Hq)%ParseChordName_Ok_inv.
  destruct (ParseNote_Ok token root Hroot) as (Hne & Horiginal & _).
  apply findQuality_outcome_inv in Hq as [Hi Hin].
  exists quality. rewrite Horiginal. split_and!; [done| |lia|done| |done].
  - destruct token; [done|simpl; lia].
  - by eapply list_elem_of_lookup_2.
Qed.

Lemma note_tokens_suffixes_checked :
  Forall (λ t,
            Forall (λ chordDef,
                      Forall (λ suffix,
                                ParseChordName (t +:+ suffix)
                                = Ok (mkNote t (token_class t), chordDef))
                             (Chord.Suffixes chordDef)) chordDictionary) note_tokens.
Proof. apply (bool_decide_unpack _). by vm_compute. Qed.

(** X19. Every spelling of a note followed by a suffix of a definition of
    the dictionary is a chord name that parses to that note and that
    definition: the root found first (two bytes, then one) never takes a
    byte of the suffix, and no suffix hides another. *)
Theorem ParseChordName_round_trip (t suffix : string) (chordDef : Chord) :
  note_token t = true →
  chordDef ∈ chordDictionary →
  suffix ∈ Chord.Suffixes chordDef →
  ParseChordName (t +:+ suffix) = Ok (mkNote t (token_class t), chordDef).
Proof.
  intros Htoken%elem_of_note_tokens Hc Hsuffix.
  pose proof note_tokens_suffixes_checked as Hall.
  rewrite Forall_forall in Hall. specialize (Hall t Htoken).
  rewrite Forall_forall in Hall. specialize (Hall chordDef Hc).
  rewrite Forall_forall in Hall. by apply Hall.
Qed.

(** X20. A chord name that parses leads through the whole engine without a
    panic and back to its definition: the notes generated for it exist, have
    pitch classes for values and can be rendered, their intervals from the
    root are the formula, and [FindMatches] returns the definition named. *)
Theorem ParseChordName_identified (name : string) (root : Note) (chordDef : Chord) :
  ParseChordName name = Ok (root, chordDef) →
  ∃ notes,
    GenerateNotes root (Chord.Intervals chordDef) = Some notes
    ∧ Forall (λ n, pitch_class (Value n)) notes
    ∧ is_Some (SliceToString notes)
    ∧ CalculateIntervals root notes = Chord.Intervals chordDef
    ∧ toMatch chordDef ∈ FindMatches (CalculateIntervals root notes).
Proof.
  intros (token & quality & i & _ & _ & Hroot & Hq)%ParseChordName_Ok_inv.
  apply ParseNote_in_range in Hroot.
  apply findQuality_outcome_inv in Hq as [Hc%list_elem_of_lookup_2 _].
  pose proof chordDictionary_formulas as Hdict. rewrite Forall_forall in Hdict.
  destruct (Hdict chordDef Hc) as [Hrange _].
  destruct (GenerateNotes_no_panic root (Chord.Intervals chordDef) Hroot) as [notes Hgen].
  { eapply Forall_impl; [exact Hrange|]. unfold offset_ok. intros. lia. }
  pose proof (GenerateNotes_in_range _ _ _ Hgen) as Hnotes.
  exists notes. rewrite (generated_chord_intervals root chordDef notes) by done.
  split_and!; [done|done|by apply SliceToString_no_panic|done|].
  apply FindMatches_elem. exists chordDef. split_and!; [done..|].
  intros o Ho. done.
Qed.

(** X21. The notes that [GenerateNotes] returns carry spellings that
    [ParseNote] reads back to the same note. *)
Theorem GenerateNotes_reparse (root : Note) (offsets : list Z) (notes : list Note) :
  GenerateNotes root offsets = Some notes →
  Forall (λ n, ParseNote (Original n) = Ok n) notes.
Proof.
  intros Hgen%GenerateNotes_Forall2.
  apply Forall2_Forall_r with (1 := Hgen). apply Forall_forall.
  intros offset _ [name value] [_ Hname]. simpl in *.
  pose proof (index_valueToName _ _ Hname) as [Hclass%pitch_class_cases _].
  unfold index in Hname.
  repeat (apply elem_of_cons in Hclass as [->|Hclass];
          [simpl in Hname; injection Hname as <-; vm_compute; reflexivity|]).
  by apply elem_of_nil in Hclass.
Qed.
End ChordNames.

Lemma ParseChordName_decomposition_witness :
  ∃ quality,
    "Bbm7" = "Bb" +:+ quality
    ∧ (1 ≤ String.length "Bb" ≤ 2)%nat
    ∧ @ParseNote ascii_tables "Bb" = Ok (mkNote "Bb" 10)
    ∧ Chord.mk "Minor 7th" ["m7"; "min7"] [0; 3; 7; 10] ∈ chordDictionary
    ∧ quality ∈ ["m7"; "min7"].
Proof.
  apply (@ParseChordName_decomposition ascii_tables "Bbm7" (mkNote "Bb" 10)
           (Chord.mk "Minor 7th" ["m7"; "min7"] [0; 3; 7; 10])).
  vm_compute. reflexivity.
Defined.

Lemma ParseChordName_round_trip_witness :
  @ParseChordName ascii_tables ("bb" +:+ "m(maj7)")
  = Ok (mkNote "bb" (token_class "bb"), Chord.mk "Minor-Major 7th" ["m(maj7)"] [0; 3; 7; 11]).
Proof.
  apply (@ParseChordName_round_trip ascii_tables).
  - reflexivity.
  - unfold chordDictionary. set_solver.
  - simpl. set_solver.
Defined.

Lemma ParseChordName_identified_witness :
  ∃ notes,
    GenerateNotes (mkNote "F#" 6) [0; 3; 7; 10] = Some notes
    ∧ Forall (λ n, pitch_class (Value n)) notes
    ∧ is_Some (SliceToString notes)
    ∧ CalculateIntervals (mkNote "F#" 6) notes = [0; 3; 7; 10]
    ∧ toMatch (Chord.mk "Minor 7th" ["m7"; "min7"] [0; 3; 7; 10])
        ∈ FindMatches (CalculateIntervals (mkNote "F#" 6) notes).
Proof.
  apply (@ParseChordName_identified ascii_tables "F#m7" (mkNote "F#" 6)
           (Chord.mk "Minor 7th" ["m7"; "min7"] [0; 3; 7; 10])).
  vm_compute. reflexivity.
Defined.

Lemma GenerateNotes_reparse_witness :
  Forall (λ n, @ParseNote ascii_tables (Original n) = Ok n)
         [mkNote "A" 9; mkNote "C" 0; mkNote "E" 4; mkNote "G" 7].
Proof.
  apply (@GenerateNotes_reparse ascii_tables (mkNote "A" 9) [0; 3; 7; 10]).
  vm_compute. reflexivity.
Defined.
